(** * The crossword CSP engine of [generate.py]

    A shallow embedding of [CrosswordCreator] (node consistency, AC-3,
    the consistency check, the selection heuristics and backtracking
    search) and the properties of its specification.

    Python values are modelled as the code has them: integers as [Z],
    [str] as [string] with Python's indexing (negative indices wrap, an
    index out of range raises [IndexError]), a [set] as a [gset]
    (iterated in the order of [elements]), a [dict] as an association
    list in insertion order (the order in which [consistent] and
    [select_unassigned_variable] walk their dictionaries), an exception
    as the [Err] case of a result type.  The [Crossword] and [Variable]
    classes of [crossword.py] are read through their interface. *)

From stdpp Require Import base decidable option list countable gmap strings
  sorting.
From Stdlib Require Import ZArith Lia.

Open Scope Z_scope.

(** ** Exceptions and results *)

(** The Python exceptions the engine can raise.  [RecursionError] stands
    for an exhausted recursion budget of the model. *)
Inductive exn : Set :=
  | KeyError
  | TypeError
  | IndexError
  | RecursionError.

Inductive result (A : Type) : Type :=
  | Ok (a : A)
  | Err (e : exn).
Arguments Ok {A} a.
Arguments Err {A} e.

Global Instance exn_eq_dec : EqDecision exn.
Proof. solve_decision. Defined.

Global Instance result_ret : MRet result := λ A a, Ok a.
Global Instance result_bind : MBind result := λ A B f m,
  match m with
  | Ok a => f a
  | Err e => Err e
  end.

Global Instance result_fmap : FMap result := λ A B f m,
  match m with
  | Ok a => Ok (f a)
  | Err e => Err e
  end.

(** ** Python dictionaries: association lists in insertion order *)

Module PyDict.
Section dict.
Context {K V : Type} `{EqDecision K}.

Definition keys (d : list (K * V)) : list K := d.*1.

(** [d.get(k)], [None] where [d[k]] raises [KeyError]. *)
Fixpoint get (d : list (K * V)) (k : K) : option V :=
  match d with
  | [] => None
  | (k', v) :: d' => if decide (k' = k) then Some v else get d' k
  end.

(** [d[k]] *)
Definition getitem (d : list (K * V)) (k : K) : result V :=
  match get d k with
  | Some v => Ok v
  | None => Err KeyError
  end.

(** [k in d] *)
Definition contains (d : list (K * V)) (k : K) : bool :=
  bool_decide (is_Some (get d k)).

(** [d[k] = v]: an existing key keeps its position, a new key goes
    last. *)
Fixpoint setitem (d : list (K * V)) (k : K) (v : V) : list (K * V) :=
  match d with
  | [] => [(k, v)]
  | (k', v') :: d' =>
      if decide (k' = k) then (k, v) :: d' else (k', v') :: setitem d' k v
  end.

(** The dictionary left by [d.pop(k)]. *)
Fixpoint remove (d : list (K * V)) (k : K) : list (K * V) :=
  match d with
  | [] => []
  | (k', v') :: d' =>
      if decide (k' = k) then d' else (k', v') :: remove d' k
  end.

(** [d.pop(k)]: raises [KeyError] on a missing key. *)
Definition pop (d : list (K * V)) (k : K) : result (list (K * V)) :=
  match get d k with
  | Some _ => Ok (remove d k)
  | None => Err KeyError
  end.
End dict.
End PyDict.

(** ** Strings *)

(** [s[k]] for a Python [str]. *)
Definition str_getitem (s : string) (k : Z) : result Ascii.ascii :=
  let n := Z.of_nat (String.length s) in
  let k' := if k <? 0 then k + n else k in
  if (k' <? 0) || (n <=? k') then Err IndexError
  else match String.get (Z.to_nat k') s with
       | Some ch => Ok ch
       | None => Err IndexError
       end.

(** ** The constraint graph *)

Inductive Direction : Set := ACROSS | DOWN.

(** [crossword.Variable]: a slot of the grid, with the fields [i], [j],
    [direction] and [length] of the class. *)
Record Var : Set := mkVar {
  var_i : Z;
  var_j : Z;
  var_direction : Direction;
  var_length : Z
}.

Global Instance Direction_eq_dec : EqDecision Direction.
Proof. solve_decision. Defined.

Global Instance Var_eq_dec : EqDecision Var.
Proof. solve_decision. Defined.

Definition Direction_to_bool (d : Direction) : bool :=
  match d with ACROSS => true | DOWN => false end.
Definition Direction_of_bool (b : bool) : Direction :=
  if b then ACROSS else DOWN.

Global Instance Direction_countable : Countable Direction.
Proof.
  refine (inj_countable' Direction_to_bool Direction_of_bool _).
  by intros [].
Defined.

Definition Var_to_tuple (v : Var) : Z * Z * Direction * Z :=
  (var_i v, var_j v, var_direction v, var_length v).
Definition Var_of_tuple (t : Z * Z * Direction * Z) : Var :=
  let '(a, b, d, n) := t in mkVar a b d n.

Global Instance Var_countable : Countable Var.
Proof.
  refine (inj_countable' Var_to_tuple Var_of_tuple _).
  by intros [].
Defined.

(** An entry of the [overlaps] table of the crossword: the pair is not a
    key ([KeyError] on lookup), maps to [None] (the slots do not cross),
    or maps to a pair of indices. *)
Inductive overlap_entry : Set :=
  | NoEntry
  | NoOverlap
  | Overlap (i j : Z).

Global Instance overlap_entry_eq_dec : EqDecision overlap_entry.
Proof. solve_decision. Defined.

(** [crossword.Crossword], as far as the engine reads it.  [variables]
    lists the set of slots in its iteration order. *)
Record Crossword : Type := mkCrossword {
  variables : list Var;
  words : gset string;
  overlaps : Var → Var → overlap_entry;
  neighbors : Var → gset Var
}.

(** [self.domains]: slot to set of candidate words. *)
Abbreviation domains := (list (Var * gset string)).

(** An assignment: slot to chosen word. *)
Abbreviation assignment := (list (Var * string)).

(** What [backtrack] returns: [None], or the assignment dictionary it
    was given.  The search works on a single dictionary, created by
    [solve] and mutated in place, so a returned assignment is a
    reference to that dictionary and its contents are those of the
    store that is threaded through the search. *)
Inductive retval : Set :=
  | RetNone
  | RetAssignment.

Section CrosswordCreator.
Context (cw : Crossword).

Import PyDict.

(** [(i, j) = self.crossword.overlaps[x, y]] *)
Definition overlaps_getitem (x y : Var) : result (Z * Z) :=
  match overlaps cw x y with
  | NoEntry => Err KeyError
  | NoOverlap => Err TypeError
  | Overlap i j => Ok (i, j)
  end.

(** [x[i] == y[j]] *)
Definition chars_equal (x : string) (i : Z) (y : string) (j : Z)
  : result bool :=
  a ← str_getitem x i;
  b ← str_getitem y j;
  mret (bool_decide (a = b)).

(** *** [__init__] *)

Definition init_domains : domains :=
  foldl (λ d var, setitem d var (words cw)) [] (variables cw).

(** *** [enforce_node_consistency] *)

Definition node_consistent_options (variable : Var) (dv : gset string)
  : gset string :=
  foldl (λ options word,
           if decide (Z.of_nat (String.length word) ≠ var_length variable)
           then options ∖ {[ word ]} else options)
        dv (elements dv).

Fixpoint enforce_node_consistency_loop (vs : list Var) (d : domains)
  : result domains :=
  match vs with
  | [] => Ok d
  | variable :: vs' =>
      dv ← getitem d variable;
      enforce_node_consistency_loop vs'
        (setitem d variable (node_consistent_options variable dv))
  end.

Definition enforce_node_consistency (d : domains) : result domains :=
  enforce_node_consistency_loop (keys d) d.

(** *** [revise] *)

Fixpoint revise_count (xvalue : string) (i j : Z) (ys : list string)
    (counter : Z) : result Z :=
  match ys with
  | [] => Ok counter
  | yvalue :: ys' =>
      eq ← chars_equal xvalue i yvalue j;
      revise_count xvalue i j ys' (if eq : bool then counter + 1 else counter)
  end.

Fixpoint revise_loop (d : domains) (y : Var) (i j : Z) (xs : list string)
    (xval : gset string) (revised : bool) : result (bool * gset string) :=
  match xs with
  | [] => Ok (revised, xval)
  | xvalue :: xs' =>
      dy ← getitem d y;
      counter ← revise_count xvalue i j (elements dy) 0;
      if decide (counter = 0)
      then revise_loop d y i j xs' (xval ∖ {[ xvalue ]}) true
      else revise_loop d y i j xs' xval revised
  end.

Definition revise (x y : Var) (d : domains) : result (bool * domains) :=
  dx ← getitem d x;
  '(i, j) ← overlaps_getitem x y;
  '(revised, xval) ← revise_loop d y i j (elements dx) dx false;
  mret (revised, setitem d x xval).

(** *** [ac3] *)

(** The initial queue when [arcs] is [None]. *)
Definition all_arcs (d : domains) : list (Var * Var) :=
  value ← keys d;
  pair ← elements (neighbors cw value);
  [(value, pair)].

(** The arcs put on the queue after a revision of [v]. *)
Definition ac3_enqueue (v : Var) : list (Var * Var) :=
  (λ other, (other, v)) <$> elements (neighbors cw v).

(** One turn of the [while] loop on the dequeued arc [(v, p)]. *)
Definition ac3_step (v p : Var) (rest : list (Var * Var)) (d : domains)
  : result (list (Var * Var) * domains) :=
  '(result, d') ← revise v p d;
  mret (if result : bool then rest ++ ac3_enqueue v else rest, d').

(** The final loop over the domains. *)
Fixpoint ac3_check (d : domains) (vs : list Var) : result bool :=
  match vs with
  | [] => Ok true
  | value :: vs' =>
      s ← getitem d value;
      if decide (size s = 0%nat) then Ok false else ac3_check d vs'
  end.

(** The [while] loop; the domains come back with the outcome, also
    when an exception ends the loop.  The result is [None] only when
    the model's [fuel] runs out. *)
Fixpoint ac3_loop (fuel : nat) (arcs : list (Var * Var)) (d : domains)
  : option (result bool * domains) :=
  match arcs with
  | [] => Some (ac3_check d (keys d), d)
  | (v, p) :: rest =>
      match fuel with
      | O => None
      | S fuel' =>
          match ac3_step v p rest d with
          | Err e => Some (Err e, d)
          | Ok (arcs', d') => ac3_loop fuel' arcs' d'
          end
      end
  end.

Definition total_size (d : domains) : nat :=
  sum_list ((λ kv, size kv.2) <$> d).

Definition max_degree (d : domains) : nat :=
  max_list ((λ v, size (neighbors cw v)) <$> keys d).

(** A number of turns the loop cannot exceed: every turn takes an arc
    off the queue, and only a turn that removes a word adds arcs. *)
Definition ac3_fuel (arcs : list (Var * Var)) (d : domains) : nat :=
  S (length arcs + total_size d * S (max_degree d)).

Definition ac3_arcs (arcs : option (list (Var * Var))) (d : domains)
  : list (Var * Var) :=
  match arcs with
  | None => all_arcs d
  | Some arcs => arcs
  end.

(** [ac3_fuel] is enough fuel ([ac3_loop_terminates] below), so the
    default is never taken. *)
Definition ac3 (arcs : option (list (Var * Var))) (d : domains)
  : result bool * domains :=
  let arcs := ac3_arcs arcs d in
  default (Err RecursionError, d) (ac3_loop (ac3_fuel arcs d) arcs d).

(** *** [assignment_complete] *)

Definition assignment_complete (d : domains) (a : assignment) : bool :=
  forallb (λ spot, contains a spot) (keys d).

(** *** [consistent] *)

Fixpoint consistent_layers (a : assignment) (word : Var)
    (layers : list Var) : result bool :=
  match layers with
  | [] => Ok true
  | layer :: layers' =>
      '(i, j) ← overlaps_getitem word layer;
      w ← getitem a word;
      ch ← str_getitem w i;
      w' ← getitem a layer;
      ch' ← str_getitem w' j;
      if decide (ch ≠ ch') then Ok false
      else consistent_layers a word layers'
  end.

Fixpoint consistent_loop (d : domains) (a : assignment) (ks : list Var)
    (done : gmap string Var) : result bool :=
  match ks with
  | [] => Ok true
  | word :: ks' =>
      w ← getitem a word;
      if decide (var_length word ≠ Z.of_nat (String.length w)) then Ok false
      else if decide (is_Some (done !! w)) then Ok false
      else
        let temp := filter (λ x, x ∉ keys a) (keys d) in
        let layers :=
          filter (λ x, x ∉ temp) (elements (neighbors cw word)) in
        ok ← consistent_layers a word layers;
        if ok : bool then consistent_loop d a ks' (<[w := word]> done)
        else Ok false
  end.

Definition consistent (d : domains) (a : assignment) : result bool :=
  consistent_loop d a (keys a) ∅.

(** [self.consistent(result)] on what [backtrack] returned: iterating
    over [None] raises [TypeError]. *)
Definition consistent_retval (d : domains) (r : retval) (a : assignment)
  : result bool :=
  match r with
  | RetNone => Err TypeError
  | RetAssignment => consistent d a
  end.

(** *** [order_domain_values] and its key [sort] *)

Fixpoint sort_count (word : string) (i j : Z) (vals : list string)
    (num : Z) : result Z :=
  match vals with
  | [] => Ok num
  | val :: vals' =>
      eq ← chars_equal word i val j;
      sort_count word i j vals' (if eq : bool then num else num + 1)
  end.

Fixpoint sort_loop (d : domains) (word : string) (var : Var)
    (matches : list Var) (num : Z) : result Z :=
  match matches with
  | [] => Ok num
  | match_ :: matches' =>
      '(i, j) ← overlaps_getitem var match_;
      dm ← getitem d match_;
      num' ← sort_count word i j (elements dm) num;
      sort_loop d word var matches' num'
  end.

Definition sort (d : domains) (word : string) (var : Var) : result Z :=
  sort_loop d word var (elements (neighbors cw var)) 0.

(** [list.sort(key=...)] is stable: a word goes behind the words
    already placed whose key is not larger. *)
Fixpoint insert_by_key (k : Z) (w : string) (l : list (Z * string))
  : list (Z * string) :=
  match l with
  | [] => [(k, w)]
  | (k', w') :: l' =>
      if decide (k < k') then (k, w) :: l
      else (k', w') :: insert_by_key k w l'
  end.

Definition sort_by_key (l : list (Z * string)) : list (Z * string) :=
  foldl (λ acc kw, insert_by_key kw.1 kw.2 acc) [] l.

Fixpoint sort_keys (d : domains) (var : Var) (ordered : list string)
  : result (list (Z * string)) :=
  match ordered with
  | [] => Ok []
  | x :: ordered' =>
      k ← sort d x var;
      rest ← sort_keys d var ordered';
      mret ((k, x) :: rest)
  end.

Definition order_domain_values (d : domains) (var : Var) (a : assignment)
  : result (list string) :=
  dv ← getitem d var;
  keyed ← sort_keys d var (elements dv);
  mret ((sort_by_key keyed).*2).

(** *** [select_unassigned_variable] *)

Fixpoint select_loop (d : domains) (options : list Var) (min : Var)
    (minval : Z) : result Var :=
  match options with
  | [] => Ok min
  | opt :: options' =>
      s ← getitem d opt;
      let comp := Z.of_nat (size s) in
      if decide (comp = minval) then
        if decide (neighbors cw min ⊂ neighbors cw opt)
        then select_loop d options' opt comp
        else select_loop d options' min minval
      else if decide (comp < minval) then select_loop d options' opt comp
      else select_loop d options' min minval
  end.

Definition unassigned (d : domains) (a : assignment) : list Var :=
  filter (λ x, x ∉ keys a) (keys d).

Definition select_unassigned_variable (d : domains) (a : assignment)
  : result (option Var) :=
  match unassigned d a with
  | [] => Ok None
  | min :: options' =>
      s ← getitem d min;
      Some <$> select_loop d options' min (Z.of_nat (size s))
  end.

(** *** [backtrack] *)

(** The [for] loop of [backtrack] over the ordered values; [rec] is
    the recursive call.  The store comes back with the outcome. *)
Fixpoint backtrack_loop
    (rec : assignment → option (result retval * assignment))
    (d : domains) (var : Var) (vals : list string) (a : assignment)
  : option (result retval * assignment) :=
  match vals with
  | [] => Some (Ok RetNone, a)
  | value :: vals' =>
      let a1 := setitem a var value in
      match consistent d a1 with
      | Err e => Some (Err e, a1)
      | Ok false =>
          match pop a1 var with
          | Err e => Some (Err e, a1)
          | Ok a2 => backtrack_loop rec d var vals' a2
          end
      | Ok true =>
          match rec a1 with
          | None => None
          | Some (Err e, a2) => Some (Err e, a2)
          | Some (Ok r, a2) =>
              match consistent_retval d r a2 with
              | Err e => Some (Err e, a2)
              | Ok true => Some (Ok r, a2)
              | Ok false =>
                  match pop a2 var with
                  | Err e => Some (Err e, a2)
                  | Ok a3 => backtrack_loop rec d var vals' a3
                  end
              end
          end
      end
  end.

(** [backtrack] with a bound on the depth of the recursion; the result
    is [None] only when the model's [fuel] runs out. *)
Fixpoint backtrack_fuel (fuel : nat) (d : domains) (a : assignment)
  : option (result retval * assignment) :=
  match fuel with
  | O => None
  | S fuel' =>
      if assignment_complete d a then Some (Ok RetAssignment, a)
      else
        match select_unassigned_variable d a with
        | Err e => Some (Err e, a)
        | Ok None =>
            (* [self.domains[None]] in [order_domain_values] *)
            Some (Err KeyError, a)
        | Ok (Some var) =>
            match order_domain_values d var a with
            | Err e => Some (Err e, a)
            | Ok vals =>
                backtrack_loop (backtrack_fuel fuel' d) d var vals a
            end
        end
  end.

(** Every call assigns one more slot, so the depth of the recursion is
    at most the number of unassigned slots and the default is never
    taken ([backtrack_fuel_terminates] below). *)
Definition backtrack (d : domains) (a : assignment)
  : result retval * assignment :=
  default (Err RecursionError, a)
    (backtrack_fuel (S (length (unassigned d a))) d a).

(** *** [solve] *)

Definition solve : result (option assignment) :=
  d1 ← enforce_node_consistency init_domains;
  match ac3 None d1 with
  | (Err e, _) => Err e
  | (Ok _, d2) =>
      match backtrack d2 [] with
      | (Err e, _) => Err e
      | (Ok RetNone, _) => Ok None
      | (Ok RetAssignment, a) => Ok (Some a)
      end
  end.

End CrosswordCreator.

(** ** Crosswords from slot geometry *)

(** Modelled from the spec: the [Crossword] class of [crossword.py] is
    not among the sources.  Two slots are neighbors iff their cells meet
    in one cell of the grid, and that cell gives the overlap: its index
    in either slot. *)
Definition cells (v : Var) : list (Z * Z) :=
  (λ k : nat,
     match var_direction v with
     | DOWN => (var_i v + Z.of_nat k, var_j v)
     | ACROSS => (var_i v, var_j v + Z.of_nat k)
     end) <$> seq 0 (Z.to_nat (var_length v)).

Fixpoint index_of (c : Z * Z) (l : list (Z * Z)) : option nat :=
  match l with
  | [] => None
  | c' :: l' => if decide (c' = c) then Some 0%nat else S <$> index_of c l'
  end.

Definition grid_overlaps (vs : list Var) (x y : Var) : overlap_entry :=
  if decide (x = y) then NoEntry
  else if decide (x ∈ vs ∧ y ∈ vs) then
    match filter (λ c, c ∈ cells y) (cells x) with
    | [] => NoOverlap
    | c :: _ =>
        match index_of c (cells x), index_of c (cells y) with
        | Some i, Some j => Overlap (Z.of_nat i) (Z.of_nat j)
        | _, _ => NoOverlap
        end
    end
  else NoEntry.

Definition grid_neighbors (vs : list Var) (var : Var) : gset Var :=
  list_to_set
    (filter (λ v, v ≠ var ∧ grid_overlaps vs v var ≠ NoOverlap
                  ∧ grid_overlaps vs v var ≠ NoEntry) vs).

Definition grid_crossword (vs : list Var) (ws : gset string) : Crossword :=
  {| variables := vs;
     words := ws;
     overlaps := grid_overlaps vs;
     neighbors := grid_neighbors vs |}.


(** ** Example crosswords *)

(** Two slots that cross at the second letter of the across slot and
    the first letter of the down slot:
<<
    ___
    #_#
    #_#
>> *)
Definition cross_across : Var := mkVar 0 0 ACROSS 3.
Definition cross_down : Var := mkVar 0 1 DOWN 3.

Definition cross_crossword : Crossword :=
  grid_crossword [cross_across; cross_down] {[ "CAT"; "DOG"; "ART" ]}.

(** The domains of [cross_crossword] after node consistency. *)
Definition cross_domains : domains :=
  [(cross_across, {[ "CAT"; "DOG"; "ART" ]});
   (cross_down, {[ "CAT"; "DOG"; "ART" ]})].

(** What [revise] of the across slot against the down slot leaves of
    [cross_domains]. *)
Definition cross_revised : domains :=
  [(cross_across, {[ "CAT" ]}); (cross_down, {[ "CAT"; "DOG"; "ART" ]})].

(** What [ac3] leaves of [cross_domains]. *)
Definition cross_pruned : domains :=
  [(cross_across, {[ "CAT" ]}); (cross_down, {[ "ART" ]})].

(** The solution of [cross_crossword]. *)
Definition cross_solution : assignment :=
  [(cross_across, "CAT"); (cross_down, "ART")].

(** The same grid with a pool in which no two words agree at the
    crossing. *)
Definition cross_unsat_crossword : Crossword :=
  grid_crossword [cross_across; cross_down] {[ "CAT"; "DOG" ]}.

Definition cross_unsat_domains : domains :=
  [(cross_across, {[ "CAT"; "DOG" ]}); (cross_down, {[ "CAT"; "DOG" ]})].

Definition cross_unsat_pruned : domains :=
  [(cross_across, ∅); (cross_down, ∅)].

(** Two across slots of length 3 that do not touch, and one word:
<<
    ___
    ###
    ___
>> *)
Definition twin_top : Var := mkVar 0 0 ACROSS 3.
Definition twin_bottom : Var := mkVar 2 0 ACROSS 3.

Definition twin_crossword : Crossword :=
  grid_crossword [twin_top; twin_bottom] {[ "CAT" ]}.

Definition twin_domains : domains :=
  [(twin_top, {[ "CAT" ]}); (twin_bottom, {[ "CAT" ]})].

(** A down slot of length 5 crossed by three across slots of length 3,
    at its first, third and fifth letter:
<<
    ___
    _##
    ___
    _##
    ___
>> *)
Definition comb_a : Var := mkVar 0 0 ACROSS 3.
Definition comb_b : Var := mkVar 2 0 ACROSS 3.
Definition comb_c : Var := mkVar 4 0 ACROSS 3.
Definition comb_d : Var := mkVar 0 0 DOWN 5.

Definition comb_words : gset string :=
  {[ "CAT"; "COT"; "DOG"; "CXCXC"; "CXCXD" ]}.

Definition comb_crossword : Crossword :=
  grid_crossword [comb_a; comb_b; comb_c; comb_d] comb_words.

(** A solution of [comb_crossword]. *)
Definition comb_solution : assignment :=
  [(comb_a, "CAT"); (comb_b, "COT"); (comb_c, "DOG"); (comb_d, "CXCXD")].

(** The domains of [comb_crossword] after node and arc consistency. *)
Definition comb_domains : domains :=
  [(comb_a, {[ "CAT"; "COT" ]});
   (comb_b, {[ "CAT"; "COT" ]});
   (comb_c, {[ "CAT"; "COT"; "DOG" ]});
   (comb_d, {[ "CXCXC"; "CXCXD" ]})].

(** An across slot and a down slot of length 3 that cross at the first
    letter of the first and the third letter of the second, and an
    assignment that gives the second a word of one letter:
<<
    _##
    _##
    ___
>> *)
Definition corner_across : Var := mkVar 2 0 ACROSS 3.
Definition corner_down : Var := mkVar 0 0 DOWN 3.

Definition corner_crossword : Crossword :=
  grid_crossword [corner_across; corner_down] {[ "CAT"; "X" ]}.

Definition corner_assignment : assignment :=
  [(corner_across, "CAT"); (corner_down, "X")].

(** A single slot of length 4 and a pool with one word of that length. *)
Definition single_slot : Var := mkVar 0 0 ACROSS 4.

Definition single_crossword : Crossword :=
  grid_crossword [single_slot] {[ "CAT"; "DOGS"; "ART" ]}.

(** ** Specification predicates *)

Section Specification.
Context (cw : Crossword).
Import PyDict.

(** [d'] has the slots of [d] and, for each, a subset of its words. *)
Definition domains_subseteq (d' d : domains) : Prop :=
  keys d' = keys d ∧
  ∀ x s', get d' x = Some s' → ∃ s, get d x = Some s ∧ s' ⊆ s.

(** [w], a word of [x], has a partner among the words of [y] in [d]. *)
Definition supported (d : domains) (x y : Var) (w : string) : Prop :=
  ∃ i j dy v ch,
    overlaps cw x y = Overlap i j ∧ get d y = Some dy ∧ v ∈ dy ∧
    str_getitem w i = Ok ch ∧ str_getitem v j = Ok ch.

Definition arc_consistent (d : domains) (x y : Var) : Prop :=
  ∀ dx w, get d x = Some dx → w ∈ dx → supported d x y w.

(** The neighbor relation is symmetric on the slots [vs]. *)
Definition neighbors_symmetric (vs : list Var) : Prop :=
  Forall (λ x, set_Forall (λ y, x ∈ neighbors cw y) (neighbors cw x)) vs.

Global Instance neighbors_symmetric_dec vs : Decision (neighbors_symmetric vs).
Proof. unfold neighbors_symmetric. apply _. Defined.

(** The graph is well formed on the slots of [d]: the neighbors of a
slot are slots, neighbors are mutual, and the overlap of two neighbors
is a pair of positions inside the two slots. *)
Definition graph_wf (d : domains) : Prop :=
  ∀ x y, x ∈ keys d → y ∈ neighbors cw x →
    y ∈ keys d ∧ x ∈ neighbors cw y ∧
    ∃ i j, overlaps cw x y = Overlap i j ∧
           0 ≤ i < var_length x ∧ 0 ≤ j < var_length y.

(** Every word of a domain has the length of its slot. *)
Definition node_consistent (d : domains) : Prop :=
  ∀ x s w, get d x = Some s → w ∈ s →
           Z.of_nat (String.length w) = var_length x.

(** Every arc of the graph waits in the queue or is consistent. *)
Definition ac3_inv (arcs : list (Var * Var)) (d : domains) : Prop :=
  ∀ x y, x ∈ keys d → y ∈ neighbors cw x →
         (x, y) ∈ arcs ∨ arc_consistent d x y.

(** The words of the neighbors [x] and [y] agree where they cross. *)
Definition overlap_agrees (a : assignment) (x y : Var) : Prop :=
  ∃ i j wx wy ch,
    overlaps cw x y = Overlap i j ∧
    get a x = Some wx ∧ get a y = Some wy ∧
    str_getitem wx i = Ok ch ∧ str_getitem wy j = Ok ch.

(** The constraints on an assignment: lengths, no word used twice,
    agreement of assigned neighbors. *)
Record satisfies (a : assignment) : Prop := {
  sat_length : ∀ v w,
    get a v = Some w → var_length v = Z.of_nat (String.length w);
  sat_unique : ∀ v1 v2 w,
    get a v1 = Some w → get a v2 = Some w → v1 = v2;
  sat_overlap : ∀ x y,
    x ∈ keys a → y ∈ keys a → y ∈ neighbors cw x → overlap_agrees a x y
}.

(** The overlaps of the assigned neighbors of assigned slots are
    positions inside the two slots, and a neighbor of an assigned slot
    is assigned or waits in the domains. *)
Definition assigned_graph_wf (d : domains) (a : assignment) : Prop :=
  ∀ x y, x ∈ keys a → y ∈ neighbors cw x →
    (y ∈ keys a ∨ y ∈ keys d) ∧
    (y ∈ keys a →
     ∃ i j, overlaps cw x y = Overlap i j ∧
            0 ≤ i < var_length x ∧ 0 ≤ j < var_length y).

(** What a call that returns says of the store it leaves. *)
Definition backtrack_post (d : domains) (a : assignment) (r : retval)
    (a' : assignment) : Prop :=
  match r with
  | RetNone => a' = a
  | RetAssignment =>
      assignment_complete d a' = true ∧
      (consistent cw d a = Ok true → consistent cw d a' = Ok true)
  end.

End Specification.

(** ** [letter_grid] *)

(** [l[k]] for a Python list. *)
Definition list_getitem {A} (l : list A) (k : Z) : result A :=
  let n := Z.of_nat (length l) in
  let k' := if k <? 0 then k + n else k in
  if (k' <? 0) || (n <=? k') then Err IndexError
  else match l !! Z.to_nat k' with
       | Some x => Ok x
       | None => Err IndexError
       end.

(** [l[k] = x] *)
Definition list_setitem {A} (l : list A) (k : Z) (x : A) : result (list A) :=
  let n := Z.of_nat (length l) in
  let k' := if k <? 0 then k + n else k in
  if (k' <? 0) || (n <=? k') then Err IndexError
  else Ok (<[Z.to_nat k' := x]> l).

(** The 2D array of letters: [None] where no letter was written. *)
Abbreviation letters_grid := (list (list (option Ascii.ascii))).

(** The cell of the [k]-th letter of a slot. *)
Definition cell_at (variable : Var) (k : Z) : Z * Z :=
  (var_i variable + (if decide (var_direction variable = DOWN) then k else 0),
   var_j variable
   + (if decide (var_direction variable = ACROSS) then k else 0)).

(** [letters[i][j] = ch]: the row [letters[i]] is updated in place. *)
Definition letter_grid_set (letters : letters_grid) (i j : Z)
    (ch : Ascii.ascii) : result letters_grid :=
  row ← list_getitem letters i;
  row' ← list_setitem row j (Some ch);
  list_setitem letters i row'.

(** The loop over [range(len(word))]. *)
Fixpoint letter_grid_word (variable : Var) (word : string) (ks : list nat)
    (letters : letters_grid) : result letters_grid :=
  match ks with
  | [] => Ok letters
  | k :: ks' =>
      let '(i, j) := cell_at variable (Z.of_nat k) in
      ch ← str_getitem word (Z.of_nat k);
      letters' ← letter_grid_set letters i j ch;
      letter_grid_word variable word ks' letters'
  end.

(** The loop over [assignment.items()]. *)
Fixpoint letter_grid_loop (items : list (Var * string))
    (letters : letters_grid) : result letters_grid :=
  match items with
  | [] => Ok letters
  | (variable, word) :: items' =>
      letters' ← letter_grid_word variable word
                   (seq 0 (String.length word)) letters;
      letter_grid_loop items' letters'
  end.

(** [letter_grid], with the [height] and [width] of the crossword. *)
Definition letter_grid (height width : Z) (a : assignment)
  : result letters_grid :=
  letter_grid_loop a
    (replicate (Z.to_nat height) (replicate (Z.to_nat width) None)).

(** ** Further specification predicates *)

Global Instance result_eq_dec {A} `{EqDecision A} : EqDecision (result A).
Proof. solve_decision. Defined.

(** The letter of the grid at a cell inside it. *)
Definition grid_lookup (g : letters_grid) (c : Z * Z)
  : option (option Ascii.ascii) :=
  row ← g !! Z.to_nat c.1; row !! Z.to_nat c.2.

Definition in_grid (height width : Z) (c : Z * Z) : Prop :=
  0 ≤ c.1 < height ∧ 0 ≤ c.2 < width.

(** The letters of a word with their cells, in the order of the word. *)
Definition word_writes (variable : Var) (word : string)
  : list ((Z * Z) * Ascii.ascii) :=
  imap (λ k ch, (cell_at variable (Z.of_nat k), ch))
       (String.list_ascii_of_string word).

(** All letters of an assignment with their cells. *)
Definition assignment_writes (a : assignment)
  : list ((Z * Z) * Ascii.ascii) :=
  kv ← a; word_writes kv.1 kv.2.

(** The writes [letters[i][j] = ch] one after the other. *)
Fixpoint write_all (ws : list ((Z * Z) * Ascii.ascii)) (g : letters_grid)
  : result letters_grid :=
  match ws with
  | [] => Ok g
  | (c, ch) :: ws' => g' ← letter_grid_set g c.1 c.2 ch; write_all ws' g'
  end.

(** A grid of [height] rows of [width] cells. *)
Definition grid_shape (height width : Z) (g : letters_grid) : Prop :=
  Z.of_nat (length g) = height ∧
  Forall (λ row, Z.of_nat (length row) = width) g.

(** An index that a list of length [n] rejects. *)
Definition out_of_range (n k : Z) : Prop := k < - n ∨ n ≤ k.

Global Instance in_grid_dec height width c : Decision (in_grid height width c).
Proof. unfold in_grid. apply _. Defined.

Global Instance out_of_range_dec n k : Decision (out_of_range n k).
Proof. unfold out_of_range. apply _. Defined.

(** Letters written to the same cell are the same letter. *)
Definition writes_agree (ws : list ((Z * Z) * Ascii.ascii)) : Prop :=
  Forall (λ w1, Forall (λ w2, w1.1 = w2.1 → w1.2 = w2.2) ws) ws.

(** A list of words with their keys, in ascending order of the keys. *)
Definition keys_sorted (l : list (Z * string)) : Prop :=
  StronglySorted (λ p q, p.1 ≤ q.1) l.

(** The outcome to the caller of a recursive call that returned [r2]. *)
Definition backtrack_outcome_of (r2 : result retval) : result retval :=
  match r2 with
  | Ok RetAssignment => Ok RetAssignment
  | Ok RetNone => Err TypeError
  | Err e => Err e
  end.

(** Every assigned word is in the domain of its slot. *)
Definition within_domains (d : domains) (a : assignment) : Prop :=
  ∀ v w, PyDict.get a v = Some w →
         ∃ s, PyDict.get d v = Some s ∧ w ∈ s.

Section FurtherSpecification.
Context (cw : Crossword).
Import PyDict.

(** The neighbors of the slots [vs] are other slots of [vs]. *)
Definition neighbors_other_slots (vs : list Var) : Prop :=
  Forall (λ x, set_Forall (λ y, y ∈ vs ∧ y ≠ x) (neighbors cw x)) vs.

Global Instance neighbors_other_slots_dec vs :
  Decision (neighbors_other_slots vs).
Proof. unfold neighbors_other_slots. apply _. Defined.

(** [a] gives every slot of [d] a word of its domain, and the words of
    two slots agree wherever the overlap table has an entry for them. *)
Definition solution_within (d : domains) (a : assignment) : Prop :=
  (∀ x, x ∈ keys d → ∃ w s, get a x = Some w ∧ get d x = Some s ∧ w ∈ s) ∧
  (∀ x y i j, x ∈ keys d → y ∈ keys d → overlaps cw x y = Overlap i j →
     ∃ wx wy ch, get a x = Some wx ∧ get a y = Some wy ∧
                 str_getitem wx i = Ok ch ∧ str_getitem wy j = Ok ch).

(** The words of [var] that disagree with [word] at the overlap. *)
Definition ruled_out (d : domains) (word : string) (var n : Var)
  : gset string :=
  match overlaps cw var n, get d n with
  | Overlap i j, Some dn =>
      filter (λ val, chars_equal word i val j = Ok false) dn
  | _, _ => ∅
  end.

End FurtherSpecification.

(** * Facts *)

(** ** Dictionaries *)

Module PyDictFacts.
Import PyDict.
Section facts.
Context {K V : Type} `{EqDecision K}.
Implicit Types (d : list (K * V)) (k : K) (v : V).

Lemma get_None d k : get d k = None ↔ k ∉ keys d.
Proof.
  unfold keys. induction d as [|[k' v'] d IH]; simpl.
  - split; [intros _; apply not_elem_of_nil | done].
  - rewrite not_elem_of_cons. case_decide; subst.
    + split; [done | intros [? _]; done].
    + rewrite IH. naive_solver.
Qed.

Lemma get_is_Some d k : is_Some (get d k) ↔ k ∈ keys d.
Proof.
  destruct (get d k) as [v|] eqn:E.
  - split; [intros _ | eauto].
    destruct (decide (k ∈ keys d)) as [|Hn]; [done |].
    apply get_None in Hn. congruence.
  - apply get_None in E. split; [intros [? ?]; done | done].
Qed.

Lemma get_setitem_eq d k v : get (setitem d k v) k = Some v.
Proof.
  induction d as [|[k' v'] d IH]; simpl.
  - by rewrite decide_True.
  - case_decide; simpl; [by rewrite decide_True | by rewrite decide_False].
Qed.

Lemma get_setitem_ne d k k' v : k ≠ k' → get (setitem d k v) k' = get d k'.
Proof.
  intros Hne. induction d as [|[k0 v0] d IH]; simpl.
  - by rewrite decide_False.
  - case_decide; subst; simpl.
    + by rewrite !decide_False.
    + case_decide; [done | apply IH].
Qed.

Lemma keys_setitem_in d k v : k ∈ keys d → keys (setitem d k v) = keys d.
Proof.
  unfold keys. induction d as [|[k0 v0] d IH]; simpl.
  - by intros ?%elem_of_nil.
  - case_decide; subst; simpl; [done |].
    intros [?|?]%elem_of_cons; [done |]. f_equal. auto.
Qed.

Lemma setitem_fresh d k v : k ∉ keys d → setitem d k v = d ++ [(k, v)].
Proof.
  unfold keys. induction d as [|[k0 v0] d IH]; simpl; [done |].
  rewrite not_elem_of_cons. intros [? ?].
  rewrite decide_False by done. f_equal. auto.
Qed.

Lemma remove_setitem_fresh d k v : k ∉ keys d → remove (setitem d k v) k = d.
Proof.
  unfold keys. induction d as [|[k0 v0] d IH]; simpl.
  - intros _. by rewrite decide_True.
  - rewrite not_elem_of_cons. intros [? ?].
    rewrite decide_False by done. simpl.
    rewrite decide_False by done. f_equal. auto.
Qed.

Lemma pop_setitem_fresh d k v : k ∉ keys d → pop (setitem d k v) k = Ok d.
Proof.
  intros Hk. unfold pop. rewrite get_setitem_eq.
  by rewrite remove_setitem_fresh.
Qed.

Lemma setitem_id d k v : get d k = Some v → setitem d k v = d.
Proof.
  induction d as [|[k0 v0] d IH]; simpl; [done |].
  case_decide; subst.
  - by intros [= ->].
  - intros. f_equal. auto.
Qed.

Lemma keys_setitem_get d k v v' :
  get d k = Some v' → keys (setitem d k v) = keys d.
Proof. intros Hg. apply keys_setitem_in, get_is_Some. eauto. Qed.

Lemma elem_of_keys_setitem d k v k' :
  k' ∈ keys (setitem d k v) ↔ k' = k ∨ k' ∈ keys d.
Proof.
  rewrite <- !get_is_Some. destruct (decide (k = k')) as [->|Hne].
  - rewrite get_setitem_eq. naive_solver.
  - rewrite get_setitem_ne by done. naive_solver.
Qed.

Lemma getitem_Ok d k v : getitem d k = Ok v ↔ get d k = Some v.
Proof. unfold getitem. destruct (get d k); naive_solver. Qed.

Lemma contains_true d k : contains d k = true ↔ k ∈ keys d.
Proof. unfold contains. rewrite bool_decide_eq_true. apply get_is_Some. Qed.
End facts.
End PyDictFacts.

(** ** The result monad *)

Lemma bind_Ok {A B} (f : A → result B) (m : result A) (b : B) :
  m ≫= f = Ok b ↔ ∃ a, m = Ok a ∧ f a = Ok b.
Proof. destruct m; simpl; naive_solver. Qed.

Lemma fmap_Ok {A B} (f : A → B) (m : result A) (b : B) :
  f <$> m = Ok b ↔ ∃ a, m = Ok a ∧ b = f a.
Proof. destruct m; simpl; naive_solver. Qed.

(** Splits a hypothesis [x ← m; k = Ok b] into [m = Ok a] and
    [k a = Ok b]. *)
Ltac inv_bind H :=
  let a := fresh "a" in
  let Ha := fresh "Ha" in
  apply bind_Ok in H; destruct H as (a & Ha & H).

Tactic Notation "inv_bind_as" hyp(H) simple_intropattern(a) ident(Ha) :=
  apply bind_Ok in H; destruct H as (a & Ha & H).

Lemma chars_equal_true x i y j :
  chars_equal x i y j = Ok true ↔
  ∃ ch, str_getitem x i = Ok ch ∧ str_getitem y j = Ok ch.
Proof.
  unfold chars_equal. split.
  - intros H. inv_bind H. inv_bind H. injection H as H.
    apply bool_decide_eq_true in H. subst. eauto.
  - intros (ch & -> & ->). simpl. unfold mret, result_ret.
    by rewrite bool_decide_eq_true_2.
Qed.

(** Decides a closed, decidable proposition by evaluation. *)
Ltac decide_by_compute :=
  apply (bool_decide_unpack _); vm_compute; exact I.

(** ** Arc consistency *)

Section ArcConsistency.
Context (cw : Crossword).
Import PyDict PyDictFacts.

Lemma domains_subseteq_refl d : domains_subseteq d d.
Proof. split; [done | eauto]. Qed.

Lemma domains_subseteq_trans d1 d2 d3 :
  domains_subseteq d1 d2 → domains_subseteq d2 d3 → domains_subseteq d1 d3.
Proof.
  intros [Hk1 H1] [Hk2 H2]. split; [congruence |].
  intros x s1 Hx. destruct (H1 _ _ Hx) as (s2 & Hx2 & Hs12).
  destruct (H2 _ _ Hx2) as (s3 & Hx3 & Hs23).
  exists s3. split; [done | set_solver].
Qed.

Lemma domains_subseteq_setitem d x s s' :
  get d x = Some s → s' ⊆ s → domains_subseteq (setitem d x s') d.
Proof.
  intros Hx Hs. split; [by eapply keys_setitem_get |].
  intros y sy. destruct (decide (x = y)) as [<-|Hne].
  - rewrite get_setitem_eq. intros [= <-]. eauto.
  - rewrite get_setitem_ne by done. eauto.
Qed.

(** *** The initial domains *)

Lemma keys_init_domains v :
  v ∈ variables cw → v ∈ keys (init_domains cw).
Proof.
  unfold init_domains. generalize (@nil (Var * gset string)).
  induction (variables cw) as [|v' vs IH]; intros d0; simpl.
  - by intros ?%elem_of_nil.
  - intros [->|Hin]%elem_of_cons; [| by apply IH].
    assert (Hkeep : ∀ vs' d1, v' ∈ keys d1 →
              v' ∈ keys (foldl (λ d var, setitem d var (words cw)) d1 vs')).
    { induction vs' as [|u vs' IH']; intros d1 Hd1; simpl; [done |].
      apply IH', elem_of_keys_setitem. by right. }
    apply Hkeep, elem_of_keys_setitem. by left.
Qed.

(** *** Node consistency *)

Lemma node_consistent_options_loop variable ws (s : gset string) :
  foldl (λ options word,
           if decide (Z.of_nat (String.length word) ≠ var_length variable)
           then options ∖ {[ word ]} else options) s ws ⊆ s.
Proof.
  revert s. induction ws as [|w ws IH]; intros s; simpl; [done |].
  case_decide; [| apply IH]. etrans; [apply IH | set_solver].
Qed.

Lemma node_consistent_options_subseteq variable dv :
  node_consistent_options variable dv ⊆ dv.
Proof. apply node_consistent_options_loop. Qed.

Lemma enforce_node_consistency_loop_subseteq vs d d' :
  enforce_node_consistency_loop vs d = Ok d' → domains_subseteq d' d.
Proof.
  revert d. induction vs as [|v vs IH]; intros d; simpl.
  - intros [= <-]. apply domains_subseteq_refl.
  - intros H. inv_bind H. apply getitem_Ok in Ha.
    eapply domains_subseteq_trans; [by apply IH |].
    eapply domains_subseteq_setitem; [done |].
    apply node_consistent_options_subseteq.
Qed.

(** *** [revise] *)

Lemma revise_count_spec xvalue i j ys c c' :
  revise_count xvalue i j ys c = Ok c' →
  c ≤ c' ∧ (c' ≠ c → ∃ v, v ∈ ys ∧ chars_equal xvalue i v j = Ok true).
Proof.
  revert c. induction ys as [|y ys IH]; intros c; simpl.
  - intros [= <-]. split; [lia | done].
  - intros H. inv_bind H. destruct (IH _ H) as [Hle Hex].
    destruct a.
    + split; [lia |]. intros _. exists y. split; [left | done].
    + split; [done |]. intros Hc. destruct (Hex Hc) as (v & Hv & Heq).
      exists v. split; [by right | done].
Qed.

Lemma revise_loop_spec d y i j xs xval revised r xval' :
  revise_loop d y i j xs xval revised = Ok (r, xval') →
  xval' ⊆ xval ∧
  (r = false → xval' = xval ∧ revised = false) ∧
  (r = true → revised = true ∨ ∃ w, w ∈ xs ∧ w ∉ xval') ∧
  (∀ w, w ∈ xs → w ∈ xval' →
     ∃ dy v, get d y = Some dy ∧ v ∈ dy ∧ chars_equal w i v j = Ok true).
Proof.
  revert xval revised. induction xs as [|x xs IH]; intros xval revised; simpl.
  - intros [= <- <-]. split_and!; [done | done | by left |].
    by intros w ?%elem_of_nil.
  - intros H. inv_bind H. inv_bind H. apply getitem_Ok in Ha.
    case_decide as Hc.
    + destruct (IH _ _ H) as (Hsub & Hf & Ht & Hsup). split_and!.
      * set_solver.
      * intros ->. destruct (Hf eq_refl) as [_ ?]. done.
      * intros _. right. exists x. split; [left | set_solver].
      * intros w [->|Hw]%elem_of_cons Hin; [| by apply Hsup].
        apply Hsub, elem_of_difference in Hin as [_ Hn].
        by destruct Hn; apply elem_of_singleton.
    + destruct (IH _ _ H) as (Hsub & Hf & Ht & Hsup). split_and!.
      * done.
      * done.
      * intros Hr. destruct (Ht Hr) as [?|(w & ? & ?)]; [by left |].
        right. exists w. split; [by right | done].
      * intros w [->|Hw]%elem_of_cons Hin; [| by apply Hsup].
        destruct (revise_count_spec _ _ _ _ _ _ Ha0) as [_ Hex].
        destruct Hex as (v & Hv & Heq); [done |].
        exists a, v. split_and!; [done | by apply elem_of_elements | done].
Qed.

Lemma revise_spec x y d revised d' :
  revise cw x y d = Ok (revised, d') →
  ∃ dx xval,
    get d x = Some dx ∧ d' = setitem d x xval ∧ xval ⊆ dx ∧
    (revised = false → xval = dx) ∧
    (revised = true → xval ⊂ dx) ∧
    (∀ w, w ∈ xval → supported cw d x y w).
Proof.
  unfold revise. intros H. inv_bind H. apply getitem_Ok in Ha.
  inv_bind H. destruct a0 as [i j]. inv_bind H.
  destruct a0 as [r xval]. injection H as <- <-.
  destruct (revise_loop_spec _ _ _ _ _ _ _ _ _ Ha1) as (Hsub & Hf & Ht & Hs).
  exists a, xval. split_and!; [done | done | done | | |].
  - intros Hr. by destruct (Hf Hr).
  - intros Hr. destruct (Ht Hr) as [?|(w & Hw & Hn)]; [done |].
    apply elem_of_elements in Hw. set_solver.
  - intros w Hw. destruct (Hs w) as (dy & v & Hy & Hv & Heq).
    { apply elem_of_elements. set_solver. }
    { done. }
    apply chars_equal_true in Heq as (ch & ? & ?).
    unfold overlaps_getitem in Ha0.
    destruct (overlaps cw x y) as [| |i' j'] eqn:Ho; try done.
    injection Ha0 as -> ->. exists i, j, dy, v, ch. done.
Qed.

Lemma revise_subseteq x y d revised d' :
  revise cw x y d = Ok (revised, d') → domains_subseteq d' d.
Proof.
  intros (dx & xval & Hx & -> & Hsub & _)%revise_spec.
  by eapply domains_subseteq_setitem.
Qed.

(** *** The [while] loop of [ac3] *)

Lemma ac3_step_Ok v p rest d arcs' d' :
  ac3_step cw v p rest d = Ok (arcs', d') ↔
  ∃ revised,
    revise cw v p d = Ok (revised, d') ∧
    arcs' = if revised : bool then rest ++ ac3_enqueue cw v else rest.
Proof.
  unfold ac3_step. rewrite bind_Ok. split.
  - intros ([revised d1] & Hr & [= <- <-]). eauto.
  - intros (revised & Hr & ->). by exists (revised, d').
Qed.

(** An invariant [P] of the loop, kept by every turn, holds of the
    domains the loop ends with. *)
Lemma ac3_loop_invariant (P : list (Var * Var) → domains → Prop) :
  (∀ v p rest d arcs' d',
     P ((v, p) :: rest) d → ac3_step cw v p rest d = Ok (arcs', d') →
     P arcs' d') →
  ∀ fuel arcs d r d',
    P arcs d → ac3_loop cw fuel arcs d = Some (r, d') →
    ∃ arcs', P arcs' d' ∧
      (r = ac3_check d' (keys d') ∧ arcs' = []
       ∨ ∃ v p rest e, arcs' = (v, p) :: rest ∧ r = Err e
                       ∧ ac3_step cw v p rest d' = Err e).
Proof.
  intros Hstep fuel. induction fuel as [|fuel IH]; intros arcs d r d' HP.
  - destruct arcs as [|[v p] rest]; simpl; [| done].
    intros [= <- <-]. exists []. split; [done | by left].
  - destruct arcs as [|[v p] rest]; simpl.
    + intros [= <- <-]. exists []. split; [done | by left].
    + destruct (ac3_step cw v p rest d) as [[arcs1 d1]|e] eqn:Hs.
      * apply IH. by eapply Hstep.
      * intros [= <- <-]. exists ((v, p) :: rest). split; [done |].
        right. by exists v, p, rest, e.
Qed.

Lemma ac3_loop_subseteq fuel arcs d r d' :
  ac3_loop cw fuel arcs d = Some (r, d') → domains_subseteq d' d.
Proof.
  intros H.
  apply (ac3_loop_invariant (λ _ d1, domains_subseteq d1 d))
    in H as (_ & ? & _); [done | | apply domains_subseteq_refl].
  intros v p rest d1 arcs1 d2 Hd1 (revised & Hr & _)%ac3_step_Ok.
  eapply domains_subseteq_trans; [by eapply revise_subseteq | done].
Qed.

Lemma ac3_subseteq arcs d : domains_subseteq (ac3 cw arcs d).2 d.
Proof.
  unfold ac3.
  destruct (ac3_loop _ _ _ _) as [[r d']|] eqn:H; simpl.
  - by eapply ac3_loop_subseteq.
  - apply domains_subseteq_refl.
Qed.

(** *** The final check *)

Lemma ac3_check_spec d vs b :
  ac3_check d vs = Ok b →
  b = false ↔ ∃ v s, v ∈ vs ∧ get d v = Some s ∧ size s = 0%nat.
Proof.
  induction vs as [|v vs IH]; simpl.
  - intros [= <-]. split; [done |]. by intros (v & s & ?%elem_of_nil & _).
  - intros H. inv_bind H. apply getitem_Ok in Ha. case_decide as Hs.
    + injection H as <-. split; [| done]. intros _.
      exists v, a. split_and!; [left | done | done].
    + rewrite (IH H). split.
      * intros (v' & s & ? & ? & ?). exists v', s. split; [by right | done].
      * intros (v' & s & [->|?]%elem_of_cons & Hg & Hz).
        -- congruence.
        -- by exists v', s.
Qed.

(** *** Arc consistency of what the loop leaves *)

Lemma supported_setitem d v xval x y w :
  y ≠ v → supported cw d x y w → supported cw (setitem d v xval) x y w.
Proof.
  intros Hne (i & j & dy & u & ch & ? & ? & ?).
  exists i, j, dy, u, ch. by rewrite get_setitem_ne.
Qed.

Lemma ac3_step_inv v p rest d arcs' d' :
  neighbors_symmetric cw (keys d) →
  ac3_inv cw ((v, p) :: rest) d →
  ac3_step cw v p rest d = Ok (arcs', d') →
  keys d' = keys d ∧ ac3_inv cw arcs' d'.
Proof.
  intros Hsym Hinv (revised & Hr & ->)%ac3_step_Ok.
  destruct (revise_spec _ _ _ _ _ Hr)
    as (dx & xval & Hx & -> & Hsub & Hf & _ & Hsup).
  assert (Hk : keys (setitem d v xval) = keys d) by by eapply keys_setitem_get.
  split; [done |]. destruct revised.
  - intros x y Hxk Hy. rewrite Hk in Hxk.
    destruct (decide (y = v)) as [->|Hne].
    + left. apply elem_of_app. right. unfold ac3_enqueue.
      apply list_elem_of_fmap. exists x. split; [done |].
      apply elem_of_elements.
      unfold neighbors_symmetric in Hsym. rewrite Forall_forall in Hsym.
      by apply (Hsym x Hxk v).
    + assert (Hcase : (x, y) = (v, p) ∨ (x, y) ∈ rest
                      ∨ arc_consistent cw d x y).
      { destruct (Hinv x y Hxk Hy) as [[?|?]%elem_of_cons|?]; auto. }
      destruct Hcase as [[= -> ->]|[?|Hc]].
      * right. intros dx' w. rewrite get_setitem_eq. intros [= <-] Hw.
        apply supported_setitem; [done | by apply Hsup].
      * left. apply elem_of_app. by left.
      * right. intros dx' w Hg Hw. apply supported_setitem; [done |].
        destruct (decide (x = v)) as [->|Hxv].
        -- rewrite get_setitem_eq in Hg. injection Hg as <-.
           apply (Hc dx); [done | set_solver].
        -- rewrite get_setitem_ne in Hg by done. by apply (Hc dx').
  - rewrite (Hf eq_refl), (setitem_id _ _ _ Hx) in *.
    intros x y Hxk Hy.
    destruct (Hinv x y Hxk Hy) as [[[= -> ->]|?]%elem_of_cons|?]; auto.
    right. intros dx' w Hg Hw. apply Hsup. congruence.
Qed.

Lemma all_arcs_inv d : ac3_inv cw (all_arcs cw d) d.
Proof.
  intros x y Hx Hy. left. unfold all_arcs.
  apply list_elem_of_bind. exists x. split; [| done].
  apply list_elem_of_bind. exists y. split; [left |].
  by apply elem_of_elements.
Qed.

Lemma ac3_loop_arc_consistent fuel d b d' :
  neighbors_symmetric cw (keys d) →
  ac3_loop cw fuel (all_arcs cw d) d = Some (Ok b, d') →
  ∀ x y, x ∈ keys d' → y ∈ neighbors cw x → arc_consistent cw d' x y.
Proof.
  intros Hsym H.
  apply (ac3_loop_invariant (λ arcs d1, keys d1 = keys d ∧ ac3_inv cw arcs d1))
    in H as (arcs' & [_ Hinv] & Hend).
  - destruct Hend as [[_ ->]|(? & ? & ? & ? & _ & [=] & _)].
    intros x y Hx Hy. destruct (Hinv x y Hx Hy) as [?%elem_of_nil|?]; done.
  - intros v p rest d1 arcs1 d2 [Hk Hi] Hs.
    destruct (ac3_step_inv v p rest d1 arcs1 d2) as [Hk' Hi']; try done.
    + by rewrite Hk.
    + split; [congruence | done].
  - split; [done | apply all_arcs_inv].
Qed.

(** *** Termination of the loop *)

Lemma total_size_setitem d x s s' :
  get d x = Some s →
  (total_size (setitem d x s') + size s = total_size d + size s')%nat.
Proof.
  unfold total_size. induction d as [|[k v] d IH]; csimpl; [done |].
  case_decide; subst; csimpl.
  - intros [= ->]. lia.
  - intros Hg. specialize (IH Hg). lia.
Qed.

Lemma max_degree_setitem d x s s' :
  get d x = Some s → max_degree cw (setitem d x s') = max_degree cw d.
Proof. intros Hg. unfold max_degree. by erewrite keys_setitem_get. Qed.

Lemma size_neighbors_le_max_degree d v :
  v ∈ keys d → (size (neighbors cw v) ≤ max_degree cw d)%nat.
Proof.
  intros Hv. unfold max_degree. apply max_list_elem_of_le.
  apply list_elem_of_fmap. by exists v.
Qed.

Lemma length_ac3_enqueue v :
  length (ac3_enqueue cw v) = size (neighbors cw v).
Proof. unfold ac3_enqueue. by rewrite length_fmap. Qed.

Lemma ac3_step_decreases v p rest d arcs' d' :
  ac3_step cw v p rest d = Ok (arcs', d') →
  (length arcs' + total_size d' * S (max_degree cw d')
   < length ((v, p) :: rest) + total_size d * S (max_degree cw d))%nat.
Proof.
  intros (revised & Hr & ->)%ac3_step_Ok.
  destruct (revise_spec _ _ _ _ _ Hr)
    as (dx & xval & Hx & -> & Hsub & Hf & Ht & _).
  rewrite (max_degree_setitem _ _ _ _ Hx).
  pose proof (total_size_setitem _ _ _ xval Hx) as Hsz.
  destruct revised.
  - apply subset_size in Ht; [| done].
    rewrite length_app, length_ac3_enqueue. simpl.
    assert (size (neighbors cw v) ≤ max_degree cw d)%nat.
    { apply size_neighbors_le_max_degree, get_is_Some. eauto. }
    nia.
  - rewrite (Hf eq_refl) in *. simpl. nia.
Qed.

Lemma ac3_loop_terminates fuel arcs d :
  (length arcs + total_size d * S (max_degree cw d) < fuel)%nat →
  is_Some (ac3_loop cw fuel arcs d).
Proof.
  revert arcs d. induction fuel as [|fuel IH]; intros arcs d Hlt; [lia |].
  destruct arcs as [|[v p] rest]; simpl; [eauto |].
  destruct (ac3_step cw v p rest d) as [[arcs1 d1]|e] eqn:Hs; [| eauto].
  apply IH. apply ac3_step_decreases in Hs. simpl in *. lia.
Qed.

(** What [ac3] returns is what the loop returns with [ac3_fuel]. *)
Lemma ac3_unfold arcs d :
  ac3_loop cw (ac3_fuel cw (ac3_arcs cw arcs d) d) (ac3_arcs cw arcs d) d
  = Some (ac3 cw arcs d).
Proof.
  unfold ac3.
  destruct (ac3_loop_terminates (ac3_fuel cw (ac3_arcs cw arcs d) d)
              (ac3_arcs cw arcs d) d) as [r ->]; [| done].
  unfold ac3_fuel. lia.
Qed.

(** *** Node consistency of what [enforce_node_consistency] leaves *)

Lemma node_consistent_options_spec variable ws (s : gset string) w :
  w ∈ foldl (λ options word,
               if decide (Z.of_nat (String.length word) ≠ var_length variable)
               then options ∖ {[ word ]} else options) s ws →
  w ∈ ws → Z.of_nat (String.length w) = var_length variable.
Proof.
  revert s. induction ws as [|u ws IH]; intros s; simpl.
  - by intros _ ?%elem_of_nil.
  - intros Hw [->|Hin]%elem_of_cons; [| by eapply IH].
    case_decide as Hlen; [| done].
    apply node_consistent_options_loop in Hw.
    apply elem_of_difference in Hw as [_ Hn].
    by destruct Hn; apply elem_of_singleton.
Qed.

Lemma enforce_node_consistency_loop_spec vs d d' :
  enforce_node_consistency_loop vs d = Ok d' →
  ∀ x, x ∈ vs ∨ (∀ s w, get d x = Some s → w ∈ s →
                        Z.of_nat (String.length w) = var_length x) →
       ∀ s w, get d' x = Some s → w ∈ s →
              Z.of_nat (String.length w) = var_length x.
Proof.
  revert d. induction vs as [|v vs IH]; intros d; simpl.
  - intros [= <-] x [?%elem_of_nil|?]; done.
  - intros H. inv_bind_as H dv Hdv. apply getitem_Ok in Hdv.
    intros x Hx. apply (IH _ H).
    destruct (decide (x = v)) as [->|Hne].
    + right. intros s w. rewrite get_setitem_eq. intros [= <-] Hw.
      eapply node_consistent_options_spec; [done |].
      apply elem_of_elements.
      by apply (node_consistent_options_subseteq v dv).
    + destruct Hx as [[?|?]%elem_of_cons|Hx]; [done | by left |].
      right. intros s w. rewrite get_setitem_ne by done. apply Hx.
Qed.

Lemma enforce_node_consistency_node_consistent d d' :
  enforce_node_consistency d = Ok d' → node_consistent d'.
Proof.
  intros H x s w Hx.
  eapply (enforce_node_consistency_loop_spec _ _ _ H); [| done].
  left. apply enforce_node_consistency_loop_subseteq in H as [<- _].
  apply get_is_Some. eauto.
Qed.

Lemma node_consistent_subseteq d d' :
  domains_subseteq d' d → node_consistent d → node_consistent d'.
Proof.
  intros [_ Hsub] Hnc x s' w Hx Hw.
  destruct (Hsub _ _ Hx) as (s & Hs & Hss). apply (Hnc x s); set_solver.
Qed.

(** *** Absence of exceptions on a well-formed graph *)

Lemma string_get_is_Some (s : string) (n : nat) :
  (n < String.length s)%nat → is_Some (String.get n s).
Proof.
  revert n. induction s as [|c s IH]; intros n; simpl; [lia |].
  destruct n; [eauto |]. intros Hn. apply IH. lia.
Qed.

Lemma str_getitem_in_range (s : string) (k : Z) :
  0 ≤ k < Z.of_nat (String.length s) → ∃ ch, str_getitem s k = Ok ch.
Proof.
  intros Hk. unfold str_getitem. cbv zeta.
  assert (Hlt : (k <? 0) = false) by lia.
  assert (Hle : (Z.of_nat (String.length s) <=? k) = false) by lia.
  rewrite !Hlt, Hle. simpl.
  destruct (string_get_is_Some s (Z.to_nat k)) as [ch ->]; [lia | eauto].
Qed.

Lemma revise_count_Ok xvalue i j ys c :
  (∃ ch, str_getitem xvalue i = Ok ch) →
  (∀ y, y ∈ ys → ∃ ch, str_getitem y j = Ok ch) →
  ∃ c', revise_count xvalue i j ys c = Ok c'.
Proof.
  intros [chx Hx] Hys. revert c.
  induction ys as [|y ys IH]; intros c; simpl; [eauto |].
  destruct (Hys y) as [chy Hy]; [left |].
  unfold chars_equal. rewrite Hx, Hy. simpl. apply IH.
  intros y' Hy'. apply Hys. by right.
Qed.

Lemma revise_loop_Ok d y dy i j xs xval revised :
  get d y = Some dy →
  (∀ x, x ∈ xs → ∃ ch, str_getitem x i = Ok ch) →
  (∀ v, v ∈ dy → ∃ ch, str_getitem v j = Ok ch) →
  ∃ r, revise_loop d y i j xs xval revised = Ok r.
Proof.
  intros Hy Hxs Hdy. revert xval revised.
  induction xs as [|x xs IH]; intros xval revised; simpl; [eauto |].
  unfold getitem. rewrite Hy. simpl.
  destruct (revise_count_Ok x i j (elements dy) 0) as [c ->].
  { apply Hxs. left. }
  { intros v Hv. by apply Hdy, elem_of_elements. }
  simpl. case_decide; apply IH; intros x' Hx'; apply Hxs; by right.
Qed.

Lemma revise_Ok x y d :
  graph_wf cw d → node_consistent d →
  x ∈ keys d → y ∈ neighbors cw x →
  ∃ r, revise cw x y d = Ok r.
Proof.
  intros Hwf Hnc Hx Hy.
  destruct (Hwf x y Hx Hy) as (Hyk & _ & i & j & Ho & Hi & Hj).
  apply get_is_Some in Hx as [dx Hdx]. apply get_is_Some in Hyk as [dy Hdy].
  unfold revise, getitem, overlaps_getitem. rewrite Hdx, Ho. simpl.
  destruct (revise_loop_Ok d y dy i j (elements dx) dx false)
    as [[r xval] ->]; [done | | | simpl; eauto].
  - intros w Hw%elem_of_elements. apply str_getitem_in_range.
    rewrite (Hnc x dx w); done.
  - intros v Hv. apply str_getitem_in_range.
    rewrite (Hnc y dy v); done.
Qed.

Lemma ac3_check_Ok d vs :
  (∀ v, v ∈ vs → v ∈ keys d) → ∃ b, ac3_check d vs = Ok b.
Proof.
  induction vs as [|v vs IH]; intros Hvs; simpl; [eauto |].
  destruct (proj2 (get_is_Some d v)) as [s Hs]; [apply Hvs; left |].
  unfold getitem. rewrite Hs. simpl. case_decide; [eauto |].
  apply IH. intros v' Hv'. apply Hvs. by right.
Qed.

Lemma graph_wf_keys d d' : keys d' = keys d → graph_wf cw d → graph_wf cw d'.
Proof. intros Hk Hwf x y. rewrite Hk. apply Hwf. Qed.

(** On a well-formed graph and node-consistent domains [ac3] raises no
    exception: it returns [True] or [False]. *)
Theorem ac3_returns d :
  graph_wf cw d → node_consistent d →
  ∃ b d', ac3 cw None d = (Ok b, d').
Proof.
  intros Hwf Hnc. pose proof (ac3_unfold None d) as Hloop.
  destruct (ac3 cw None d) as [r d'].
  apply (ac3_loop_invariant
           (λ arcs d1, domains_subseteq d1 d ∧
                       ∀ x y, (x, y) ∈ arcs →
                              x ∈ keys d ∧ y ∈ neighbors cw x))
    in Hloop as (arcs' & [Hsub Harcs] & Hend).
  - destruct Hend as [[-> _]|(v & p & rest & e & -> & -> & Hstep)].
    + destruct (ac3_check_Ok d' (keys d')) as [b Hb]; [done |].
      rewrite Hb. eauto.
    + destruct (Harcs v p) as [Hv Hp]; [left |].
      destruct (revise_Ok v p d') as [[revised d2] Hr].
      * eapply graph_wf_keys; [apply Hsub | done].
      * by eapply node_consistent_subseteq.
      * by rewrite (proj1 Hsub).
      * done.
      * unfold ac3_step in Hstep. by rewrite Hr in Hstep.
  - intros v p rest d1 arcs1 d2 [Hsub Harcs] (revised & Hr & ->)%ac3_step_Ok.
    split.
    + eapply domains_subseteq_trans; [by eapply revise_subseteq | done].
    + intros x y Hin.
      assert (Hcase : (x, y) ∈ rest ∨ (revised = true ∧ (x, y) ∈ ac3_enqueue cw v)).
      { destruct revised; [| by left].
        apply elem_of_app in Hin as [?|?]; [by left | by right]. }
      destruct Hcase as [?|[_ Henq]]; [apply Harcs; by right |].
      unfold ac3_enqueue in Henq.
      apply list_elem_of_fmap in Henq as (z & [= -> ->] & Hz%elem_of_elements).
      destruct (Harcs v p) as [Hv _]; [left |].
      destruct (Hwf v z Hv Hz) as (? & ? & _). done.
  - split; [apply domains_subseteq_refl |].
    intros x y Hin. unfold ac3_arcs, all_arcs in Hin.
    apply list_elem_of_bind in Hin as (x' & Hin & Hx').
    apply list_elem_of_bind in Hin as (y' & Hin & Hy'%elem_of_elements).
    apply list_elem_of_singleton in Hin as [= -> ->]. done.
Qed.

End ArcConsistency.

(** ** The consistency check *)

Section Consistency.
Context (cw : Crossword).
Import PyDict PyDictFacts.

Lemma consistent_layers_true a word layers :
  consistent_layers cw a word layers = Ok true →
  ∀ layer, layer ∈ layers → overlap_agrees cw a word layer.
Proof.
  induction layers as [|l layers IH]; simpl.
  - by intros _ layer ?%elem_of_nil.
  - intros H. inv_bind_as H [i j] Hij.
    inv_bind_as H w Hw. inv_bind_as H ch Hch.
    inv_bind_as H w' Hw'. inv_bind_as H ch' Hch'.
    case_decide as Hne; [done |]. subst ch'.
    apply getitem_Ok in Hw, Hw'.
    unfold overlaps_getitem in Hij.
    destruct (overlaps cw word l) as [| |i' j'] eqn:Ho; try done.
    injection Hij as -> ->.
    intros layer [->|?]%elem_of_cons; [| by apply IH].
    by exists i, j, w, w', ch.
Qed.

Lemma consistent_loop_true d a ks (seen : gmap string Var) :
  consistent_loop cw d a ks seen = Ok true →
  ∃ ws,
    Forall2 (λ k w, get a k = Some w) ks ws ∧
    NoDup ws ∧
    (∀ w, w ∈ ws → seen !! w = None) ∧
    ∀ k, k ∈ ks →
      (∃ w, get a k = Some w ∧ var_length k = Z.of_nat (String.length w)) ∧
      (∀ layer, layer ∈ neighbors cw k → layer ∈ keys a →
                overlap_agrees cw a k layer).
Proof.
  revert seen. induction ks as [|k ks IH]; intros seen; simpl.
  - intros _. exists []. split_and!; [constructor | constructor | |].
    + by intros w ?%elem_of_nil.
    + by intros k ?%elem_of_nil.
  - intros H. inv_bind_as H w Ha. apply getitem_Ok in Ha.
    case_decide as Hlen; [done |].
    case_decide as Hdone; [done |].
    inv_bind_as H ok Ha0. destruct ok; [| done].
    destruct (IH _ H) as (ws & Hws & Hnd & Hfresh & Hks).
    exists (w :: ws). split_and!.
    + by constructor.
    + constructor; [| done]. intros Hin.
      specialize (Hfresh _ Hin). by rewrite lookup_insert_eq in Hfresh.
    + intros w' [->|Hin]%elem_of_cons.
      * by apply eq_None_not_Some.
      * specialize (Hfresh _ Hin).
        apply lookup_insert_None in Hfresh. by destruct Hfresh.
    + intros k' [->|Hin]%elem_of_cons; [| by apply Hks].
      split; [by exists w |].
      intros layer Hl Hla.
      apply (consistent_layers_true _ _ _ Ha0).
      apply list_elem_of_filter. split; [| by apply elem_of_elements].
      intros [Hn _]%list_elem_of_filter. done.
Qed.

Theorem consistent_sound d a :
  consistent cw d a = Ok true → satisfies cw a.
Proof.
  intros (ws & Hws & Hnd & _ & Hks)%consistent_loop_true. split.
  - intros v w Hg.
    destruct (Hks v) as [(w' & Hg' & Hlen) _]; [| congruence].
    apply get_is_Some. eauto.
  - intros v1 v2 w H1 H2.
    assert (Hin1 : v1 ∈ keys a) by (apply get_is_Some; eauto).
    assert (Hin2 : v2 ∈ keys a) by (apply get_is_Some; eauto).
    apply list_elem_of_lookup in Hin1 as [i1 Hi1].
    apply list_elem_of_lookup in Hin2 as [i2 Hi2].
    destruct (Forall2_lookup_l _ _ _ _ _ Hws Hi1) as (w1 & Hw1 & Hg1).
    destruct (Forall2_lookup_l _ _ _ _ _ Hws Hi2) as (w2 & Hw2 & Hg2).
    assert (w1 = w) as -> by congruence.
    assert (w2 = w) as -> by congruence.
    assert (i1 = i2) as -> by by eapply NoDup_lookup.
    congruence.
  - intros x y Hx Hy Hn. destruct (Hks x Hx) as [_ Hl]. by apply Hl.
Qed.

(** *** The check on assignments that satisfy the constraints *)

Lemma layers_assigned d a x layer :
  assigned_graph_wf cw d a → x ∈ keys a →
  layer ∈ filter (λ y, y ∉ filter (λ z, z ∉ keys a) (keys d))
                 (elements (neighbors cw x)) →
  layer ∈ neighbors cw x ∧ layer ∈ keys a.
Proof.
  intros Hwf Hx [Hnt Hl%elem_of_elements]%list_elem_of_filter.
  split; [done |]. destruct (Hwf x layer Hx Hl) as [[?|Hd] _]; [done |].
  destruct (decide (layer ∈ keys a)) as [|Hna]; [done |].
  destruct Hnt. by apply list_elem_of_filter.
Qed.

Lemma consistent_layers_agree a word layers :
  (∀ layer, layer ∈ layers → overlap_agrees cw a word layer) →
  consistent_layers cw a word layers = Ok true.
Proof.
  induction layers as [|l layers IH]; intros Hall; simpl; [done |].
  destruct (Hall l) as (i & j & wx & wy & ch & Ho & Hx & Hy & Hi & Hj);
    [left |].
  unfold overlaps_getitem, getitem. rewrite Ho, Hx, Hy. simpl.
  rewrite Hi, Hj. simpl. rewrite decide_False by naive_solver.
  apply IH. intros layer Hl. apply Hall. by right.
Qed.

Lemma consistent_loop_complete d a ks (seen : gmap string Var) :
  assigned_graph_wf cw d a → satisfies cw a →
  NoDup ks → (∀ k, k ∈ ks → k ∈ keys a) →
  (∀ w, is_Some (seen !! w) → ∃ k, get a k = Some w ∧ k ∉ ks) →
  consistent_loop cw d a ks seen = Ok true.
Proof.
  intros Hwf Hsat. revert seen.
  induction ks as [|k ks IH]; intros seen Hnd Hks Hseen; simpl; [done |].
  apply NoDup_cons in Hnd as [Hk Hnd].
  assert (Hka : k ∈ keys a) by (apply Hks; left).
  pose proof Hka as [w Hw]%get_is_Some.
  unfold getitem. rewrite Hw. simpl.
  rewrite decide_False by (intros Hne; by destruct Hne; eapply sat_length).
  rewrite decide_False.
  2:{ intros (k' & Hk' & Hn)%Hseen. destruct Hn.
      rewrite (sat_unique _ _ Hsat _ _ _ Hk' Hw). left. }
  rewrite consistent_layers_agree.
  2:{ intros layer Hl. destruct (layers_assigned _ _ _ _ Hwf Hka Hl).
      by apply (sat_overlap _ _ Hsat). }
  simpl. apply IH; [done | intros; apply Hks; by right |].
  intros w' Hw'. destruct (decide (w = w')) as [<-|Hne].
  - by exists k.
  - rewrite lookup_insert_ne in Hw' by done.
    destruct (Hseen _ Hw') as (k' & Hk' & Hn). exists k'.
    split; [done |]. by apply not_elem_of_cons in Hn as [_ ?].
Qed.

(** [consistent] returns [True] on an assignment that satisfies the
    constraints. *)
Theorem consistent_complete d a :
  NoDup (keys a) → assigned_graph_wf cw d a → satisfies cw a →
  consistent cw d a = Ok true.
Proof.
  intros Hnd Hwf Hsat. apply consistent_loop_complete; try done.
  intros w [? Hw]. by rewrite lookup_empty in Hw.
Qed.

Lemma consistent_layers_returns d a word w layers :
  assigned_graph_wf cw d a →
  (∀ v u, get a v = Some u → var_length v = Z.of_nat (String.length u)) →
  get a word = Some w →
  (∀ layer, layer ∈ layers → layer ∈ neighbors cw word ∧ layer ∈ keys a) →
  ∃ b, consistent_layers cw a word layers = Ok b.
Proof.
  intros Hwf Hlen Hw. induction layers as [|l layers IH]; intros Hall; simpl;
    [eauto |].
  destruct (Hall l) as [Hn Hl]; [left |].
  destruct (Hwf word l) as [_ Ho]; [apply get_is_Some; eauto | done |].
  destruct (Ho Hl) as (i & j & Hij & Hi & Hj).
  apply get_is_Some in Hl as [w' Hw'].
  unfold overlaps_getitem, getitem. rewrite Hij, Hw, Hw'. simpl.
  destruct (str_getitem_in_range w i) as [ch ->];
    [by rewrite <- (Hlen _ _ Hw) |].
  destruct (str_getitem_in_range w' j) as [ch' ->];
    [by rewrite <- (Hlen _ _ Hw') |].
  simpl. case_decide; [eauto |]. apply IH. intros layer ?. apply Hall.
  by right.
Qed.

(** [consistent] raises no exception on an assignment whose words have
    the lengths of their slots. *)
Theorem consistent_returns d a :
  assigned_graph_wf cw d a →
  (∀ v u, get a v = Some u → var_length v = Z.of_nat (String.length u)) →
  ∃ b, consistent cw d a = Ok b.
Proof.
  intros Hwf Hlen. unfold consistent.
  assert (Hks : ∀ k, k ∈ keys a → k ∈ keys a) by done.
  revert Hks. generalize (∅ : gmap string Var).
  generalize (keys a) at 1 3.
  induction l as [|k ks IH]; intros seen Hks; simpl; [eauto |].
  assert (Hka : k ∈ keys a) by (apply Hks; left).
  pose proof Hka as [w Hw]%get_is_Some.
  unfold getitem. rewrite Hw. simpl.
  case_decide; [eauto |]. case_decide; [eauto |].
  destruct (consistent_layers_returns d a k w
              (filter (λ x, x ∉ filter (λ x0, x0 ∉ keys a) (keys d))
                      (elements (neighbors cw k)))) as [b ->]; try done.
  { intros layer Hl. by eapply layers_assigned. }
  simpl. destruct b; [| eauto]. apply IH. intros k' ?. apply Hks. by right.
Qed.

(** The check reads the domains for their slots only. *)
Lemma consistent_loop_keys d d' a ks (seen : gmap string Var) :
  keys d = keys d' →
  consistent_loop cw d a ks seen = consistent_loop cw d' a ks seen.
Proof.
  intros Hk. revert seen. induction ks as [|k ks IH]; intros seen; simpl;
    [done |].
  rewrite Hk. destruct (getitem a k); simpl; [| done].
  repeat case_decide; try done.
  destruct (consistent_layers _ _ _ _) as [[]|]; simpl; auto.
Qed.

Lemma consistent_keys d d' a :
  keys d = keys d' → consistent cw d a = consistent cw d' a.
Proof. apply consistent_loop_keys. Qed.

Lemma assignment_complete_true d a :
  assignment_complete d a = true ↔ ∀ v, v ∈ keys d → v ∈ keys a.
Proof.
  unfold assignment_complete. rewrite forallb_forall.
  setoid_rewrite contains_true. setoid_rewrite <- list_elem_of_In. done.
Qed.

End Consistency.

(** ** Selection and backtracking *)

Section Backtracking.
Context (cw : Crossword).
Import PyDict PyDictFacts.

Lemma elem_of_unassigned d a v :
  v ∈ unassigned d a ↔ v ∈ keys d ∧ v ∉ keys a.
Proof. unfold unassigned. rewrite list_elem_of_filter. naive_solver. Qed.

Lemma select_loop_elem_of d options min minval var :
  select_loop cw d options min minval = Ok var → var ∈ min :: options.
Proof.
  revert min minval. induction options as [|o options IH];
    intros min minval; simpl.
  - intros [= <-]. left.
  - intros H. inv_bind_as H s Hs.
    repeat case_decide; apply IH in H; set_solver.
Qed.

Lemma select_unassigned_variable_elem_of d a var :
  select_unassigned_variable cw d a = Ok (Some var) → var ∈ unassigned d a.
Proof.
  unfold select_unassigned_variable.
  destruct (unassigned d a) as [|min options]; [done |].
  intros H. inv_bind_as H s Hs.
  apply fmap_Ok in H as (v & H & [= ->]).
  by eapply select_loop_elem_of.
Qed.

(** The slot chosen has a domain of minimum size (the first
    heuristic). *)
Lemma select_loop_minimum d options min minval smin var :
  get d min = Some smin → minval = Z.of_nat (size smin) →
  select_loop cw d options min minval = Ok var →
  ∃ svar, get d var = Some svar ∧ (size svar ≤ size smin)%nat ∧
    ∀ o so, o ∈ options → get d o = Some so → (size svar ≤ size so)%nat.
Proof.
  revert min minval smin. induction options as [|o options IH];
    intros min minval smin Hmin ->; simpl.
  - intros [= <-]. exists smin. split_and!; [done | done |].
    by intros o so ?%elem_of_nil.
  - intros H. inv_bind_as H s Hs. apply getitem_Ok in Hs.
    assert (Hgoal : ∀ m sm, get d m = Some sm →
              (size sm ≤ size smin)%nat → (size sm ≤ size s)%nat →
              select_loop cw d options m (Z.of_nat (size sm)) = Ok var →
              ∃ svar, get d var = Some svar ∧ (size svar ≤ size smin)%nat ∧
                ∀ o' so, o' ∈ o :: options → get d o' = Some so →
                         (size svar ≤ size so)%nat).
    { intros m sm Hm Hle1 Hle2 Hsel.
      destruct (IH _ _ _ Hm eq_refl Hsel) as (svar & Hv & Hle & Hall).
      exists svar. split_and!; [done | lia |].
      intros o' so [->|?]%elem_of_cons Hso; [| by eapply Hall].
      assert (so = s) as -> by congruence. lia. }
    repeat case_decide.
    + apply (Hgoal o s); [done | lia | lia | done].
    + apply (Hgoal min smin); [done | lia | lia | done].
    + apply (Hgoal o s); [done | lia | lia | done].
    + apply (Hgoal min smin); [done | lia | lia | done].
Qed.

Lemma select_unassigned_variable_minimum d a var :
  select_unassigned_variable cw d a = Ok (Some var) →
  ∃ svar, get d var = Some svar ∧
    ∀ o so, o ∈ unassigned d a → get d o = Some so →
            (size svar ≤ size so)%nat.
Proof.
  unfold select_unassigned_variable.
  destruct (unassigned d a) as [|min options]; [done |].
  intros H. inv_bind_as H s Hs. apply getitem_Ok in Hs.
  apply fmap_Ok in H as (v & H & [= ->]).
  destruct (select_loop_minimum _ _ _ _ _ _ Hs eq_refl H)
    as (svar & Hv & Hle & Hall).
  exists svar. split; [done |].
  intros o so [->|?]%elem_of_cons Hso; [| by eapply Hall].
  assert (so = s) as -> by congruence. done.
Qed.

(** *** Soundness of the search *)

Lemma backtrack_loop_sound rec d var vals a r a' :
  (∀ a1 r1 a2, rec a1 = Some (Ok r1, a2) → backtrack_post cw d a1 r1 a2) →
  var ∉ keys a →
  backtrack_loop cw rec d var vals a = Some (Ok r, a') →
  match r with
  | RetNone => a' = a
  | RetAssignment =>
      assignment_complete d a' = true ∧ consistent cw d a' = Ok true
  end.
Proof.
  intros Hrec Hvar. induction vals as [|value vals IH]; simpl.
  - by intros [= <- <-].
  - destruct (consistent cw d (setitem a var value)) as [[]|] eqn:Hc;
      [| | done].
    + destruct (rec (setitem a var value)) as [[[r1|] a2]|] eqn:Hr;
        [| done | done].
      specialize (Hrec _ _ _ Hr).
      destruct r1; simpl; [done |]. destruct Hrec as [Hcomp Hcons].
      pose proof (Hcons Hc) as Hc2. rewrite Hc2.
      intros [= <- <-]. by split.
    + rewrite pop_setitem_fresh by done. apply IH.
Qed.

Lemma backtrack_fuel_sound fuel d a r a' :
  backtrack_fuel cw fuel d a = Some (Ok r, a') → backtrack_post cw d a r a'.
Proof.
  revert a r a'. induction fuel as [|fuel IH]; intros a r a'; simpl;
    [done |].
  destruct (assignment_complete d a) eqn:Hcomp.
  - intros [= <- <-]. by split.
  - destruct (select_unassigned_variable cw d a) as [[var|]|] eqn:Hsel;
      [| done | done].
    destruct (order_domain_values cw d var a) as [vals|]; [| done].
    intros H. apply backtrack_loop_sound in H; [| done |].
    + destruct r; [done |]. by destruct H.
    + apply select_unassigned_variable_elem_of, elem_of_unassigned in Hsel.
      by destruct Hsel.
Qed.

(** A call that returns [None] to the loop of its caller makes the
    caller raise [TypeError]. *)
Lemma backtrack_loop_raises_on_None rec d var value vals a a2 :
  consistent cw d (setitem a var value) = Ok true →
  rec (setitem a var value) = Some (Ok RetNone, a2) →
  backtrack_loop cw rec d var (value :: vals) a = Some (Err TypeError, a2).
Proof. intros Hc Hr. simpl. by rewrite Hc, Hr. Qed.

(** *** Termination of the search *)

Lemma unassigned_setitem d a var value :
  var ∈ unassigned d a →
  (length (unassigned d (setitem a var value))
   < length (unassigned d a))%nat.
Proof.
  intros Hin. pose proof Hin as [Hd Ha]%elem_of_unassigned.
  assert (unassigned d (setitem a var value)
          = filter (λ x, x ≠ var) (unassigned d a)) as ->.
  { unfold unassigned, keys. rewrite setitem_fresh by done.
    rewrite list_filter_filter. apply list_filter_iff.
    intros x. rewrite fmap_app, not_elem_of_app. simpl.
    rewrite list_elem_of_singleton. naive_solver. }
  eapply length_filter_lt; [done |]. naive_solver.
Qed.

Lemma backtrack_loop_terminates fuel d var vals a :
  var ∉ keys a →
  (∀ value, is_Some (backtrack_fuel cw fuel d (setitem a var value))) →
  is_Some (backtrack_loop cw (backtrack_fuel cw fuel d) d var vals a).
Proof.
  intros Hvar Hrec. induction vals as [|value vals IH]; simpl; [eauto |].
  destruct (consistent cw d (setitem a var value)) as [[]|] eqn:Hc;
    [| | eauto].
  - destruct (Hrec value) as [[[r1|e] a2] Hr]; rewrite Hr; [| eauto].
    pose proof (backtrack_fuel_sound _ _ _ _ _ Hr) as Hpost.
    destruct r1; simpl; [eauto |]. destruct Hpost as [_ Hcons].
    rewrite (Hcons Hc). eauto.
  - by rewrite pop_setitem_fresh.
Qed.

Lemma backtrack_fuel_terminates fuel d a :
  (length (unassigned d a) < fuel)%nat →
  is_Some (backtrack_fuel cw fuel d a).
Proof.
  revert a. induction fuel as [|fuel IH]; intros a Hlt; [lia |]. simpl.
  destruct (assignment_complete d a); [eauto |].
  destruct (select_unassigned_variable cw d a) as [[var|]|] eqn:Hsel;
    [| eauto | eauto].
  destruct (order_domain_values cw d var a) as [vals|]; [| eauto].
  apply select_unassigned_variable_elem_of in Hsel.
  apply backtrack_loop_terminates.
  - apply elem_of_unassigned in Hsel. by destruct Hsel.
  - intros value. apply IH.
    pose proof (unassigned_setitem d a var value Hsel). lia.
Qed.

(** What [backtrack] returns is what the recursion returns with one
    unit of fuel for each unassigned slot, and one more. *)
Lemma backtrack_unfold d a :
  backtrack_fuel cw (S (length (unassigned d a))) d a
  = Some (backtrack cw d a).
Proof.
  unfold backtrack.
  destruct (backtrack_fuel_terminates (S (length (unassigned d a))) d a)
    as [r ->]; [lia | done].
Qed.

End Backtracking.


(** ** Crosswords from slot geometry *)

Section GridCrossword.
Context (vs : list Var) (ws : gset string).
Import PyDict PyDictFacts.

Lemma index_of_elem_of c l :
  c ∈ l → ∃ n, index_of c l = Some n ∧ (n < length l)%nat.
Proof.
  induction l as [|c' l IH]; simpl; [by intros ?%elem_of_nil |].
  intros Hin. case_decide as Hc; [exists 0%nat; split; [done | lia] |].
  apply elem_of_cons in Hin as [->|Hin]; [done |].
  destruct (IH Hin) as (n & -> & Hn). exists (S n). split; [done | lia].
Qed.

Lemma length_cells v : length (cells v) = Z.to_nat (var_length v).
Proof. unfold cells. by rewrite length_fmap, length_seq. Qed.

Lemma grid_overlaps_common x y c :
  x ≠ y → x ∈ vs → y ∈ vs → c ∈ cells x → c ∈ cells y →
  ∃ i j, grid_overlaps vs x y = Overlap i j ∧
         0 ≤ i < var_length x ∧ 0 ≤ j < var_length y.
Proof.
  intros Hne Hx Hy Hcx Hcy. unfold grid_overlaps.
  rewrite decide_False by done. rewrite decide_True by done.
  destruct (filter (λ c, c ∈ cells y) (cells x)) as [|c0 l] eqn:Hf.
  - assert (Hin : c ∈ filter (λ c, c ∈ cells y) (cells x))
      by by apply list_elem_of_filter.
    rewrite Hf in Hin. by apply elem_of_nil in Hin.
  - assert (Hin : c0 ∈ filter (λ c, c ∈ cells y) (cells x))
      by (rewrite Hf; left).
    apply list_elem_of_filter in Hin as [Hc0y Hc0x].
    destruct (index_of_elem_of _ _ Hc0x) as (i & -> & Hi).
    destruct (index_of_elem_of _ _ Hc0y) as (j & -> & Hj).
    rewrite length_cells in Hi, Hj.
    exists (Z.of_nat i), (Z.of_nat j). split; [done | lia].
Qed.

Lemma grid_overlaps_inv x y :
  grid_overlaps vs x y ≠ NoOverlap → grid_overlaps vs x y ≠ NoEntry →
  x ≠ y ∧ x ∈ vs ∧ y ∈ vs ∧ ∃ c, c ∈ cells x ∧ c ∈ cells y.
Proof.
  unfold grid_overlaps. case_decide as Hxy; [done |].
  case_decide as Hvs; [| done]. destruct Hvs as [Hx Hy].
  destruct (filter (λ c, c ∈ cells y) (cells x)) as [|c0 l] eqn:Hf; [done |].
  intros _ _. split_and!; [done | done | done |]. exists c0.
  assert (Hin : c0 ∈ filter (λ c, c ∈ cells y) (cells x))
    by (rewrite Hf; left).
  apply list_elem_of_filter in Hin as [? ?]. done.
Qed.

Lemma elem_of_grid_neighbors x y :
  y ∈ grid_neighbors vs x ↔
  y ∈ vs ∧ y ≠ x ∧ grid_overlaps vs y x ≠ NoOverlap
  ∧ grid_overlaps vs y x ≠ NoEntry.
Proof.
  unfold grid_neighbors. rewrite elem_of_list_to_set, list_elem_of_filter.
  naive_solver.
Qed.

(** The crossword of a set of slots is a well-formed graph. *)
Theorem grid_graph_wf (d : domains) :
  (∀ v, v ∈ vs → v ∈ keys d) → graph_wf (grid_crossword vs ws) d.
Proof.
  intros Hkeys x y _ Hy. simpl in *.
  apply elem_of_grid_neighbors in Hy as (Hyvs & Hne & Ho1 & Ho2).
  destruct (grid_overlaps_inv _ _ Ho1 Ho2) as (_ & _ & Hxvs & c & Hcy & Hcx).
  split_and!.
  - by apply Hkeys.
  - apply elem_of_grid_neighbors.
    destruct (grid_overlaps_common x y c) as (i & j & -> & _); done.
  - by apply (grid_overlaps_common x y c).
Qed.

Lemma grid_neighbors_symmetric (ks : list Var) :
  neighbors_symmetric (grid_crossword vs ws) ks.
Proof.
  apply Forall_forall. intros x _ y Hy. simpl in *.
  apply elem_of_grid_neighbors in Hy as (Hyvs & Hne & Ho1 & Ho2).
  destruct (grid_overlaps_inv _ _ Ho1 Ho2) as (_ & _ & Hxvs & c & Hcy & Hcx).
  apply elem_of_grid_neighbors.
  destruct (grid_overlaps_common x y c) as (i & j & -> & _); done.
Qed.

(** After node consistency, [ac3] raises no exception on the crossword
    of a set of slots. *)
Theorem grid_ac3_returns (d1 : domains) :
  enforce_node_consistency (init_domains (grid_crossword vs ws)) = Ok d1 →
  ∃ b d2, ac3 (grid_crossword vs ws) None d1 = (Ok b, d2).
Proof.
  intros Hd1. apply ac3_returns.
  - apply grid_graph_wf. intros v Hv.
    pose proof Hd1 as [-> _]%enforce_node_consistency_loop_subseteq.
    by apply (keys_init_domains (grid_crossword vs ws)).
  - by eapply enforce_node_consistency_node_consistent.
Qed.

End GridCrossword.

(** * The properties of the specification *)

(** ** Arc consistency *)

Section ArcConsistencyClaims.
Context (cw : Crossword).
Import PyDict PyDictFacts.

(** C4.  When [ac3()], called without arcs, returns [True], every
    word [w] left in the domain of a slot [x] has, for every neighbor
    [y] of [x] with overlap [(i, j)], a word [v] in the domain of [y]
    with [w[i] == v[j]].  The neighbor relation of the crossword is
    symmetric on the slots. *)
Theorem ac3_arc_consistent (d d' : domains) (x y : Var) :
  neighbors_symmetric cw (keys d) →
  ac3 cw None d = (Ok true, d') →
  x ∈ keys d' → y ∈ neighbors cw x →
  ∀ dx w, get d' x = Some dx → w ∈ dx →
    ∃ i j dy v ch,
      overlaps cw x y = Overlap i j ∧ get d' y = Some dy ∧ v ∈ dy ∧
      str_getitem w i = Ok ch ∧ str_getitem v j = Ok ch.
Proof.
  intros Hsym Hac3 Hx Hy.
  pose proof (ac3_unfold cw None d) as Hloop. rewrite Hac3 in Hloop.
  by eapply (ac3_loop_arc_consistent cw _ d true d').
Qed.

(** C5, as the code has it.  When [revise(v, p)] pruned the domain of
    [v], the turn of the loop puts behind the rest of the queue the
    arcs [(z, v)] for every neighbor [z] of [v], each once, [p]
    itself included when it is a neighbor of [v]. *)
Theorem ac3_step_enqueues_all_neighbors (v p : Var)
    (rest arcs' : list (Var * Var)) (d d1 d' : domains) :
  revise cw v p d = Ok (true, d1) →
  ac3_step cw v p rest d = Ok (arcs', d') →
  ∃ enqueued,
    arcs' = rest ++ enqueued ∧ NoDup enqueued ∧
    (∀ arc, arc ∈ enqueued ↔ ∃ z, z ∈ neighbors cw v ∧ arc = (z, v)) ∧
    (p ∈ neighbors cw v → (p, v) ∈ enqueued).
Proof.
  intros Hr (revised & Hr' & ->)%ac3_step_Ok.
  rewrite Hr in Hr'. injection Hr' as <- <-.
  assert (Hin : ∀ arc, arc ∈ ac3_enqueue cw v
                       ↔ ∃ z, z ∈ neighbors cw v ∧ arc = (z, v)).
  { intros arc. unfold ac3_enqueue. rewrite list_elem_of_fmap.
    setoid_rewrite elem_of_elements. naive_solver. }
  exists (ac3_enqueue cw v). split_and!; [done | | done |].
  - unfold ac3_enqueue. apply NoDup_fmap_2; [| apply NoDup_elements].
    by intros z1 z2 [= ->].
  - intros Hp. apply Hin. eauto.
Qed.

(** C8.  [ac3] and [enforce_node_consistency] only prune: the domains
    they leave have the same slots and, for every slot, a subset of
    the words it had before the call. *)
Theorem domains_only_pruned (arcs : option (list (Var * Var)))
    (d : domains) :
  domains_subseteq (ac3 cw arcs d).2 d ∧
  ∃ d', enforce_node_consistency d = Ok d' ∧ domains_subseteq d' d.
Proof.
  split; [apply ac3_subseteq |].
  assert (Htotal : ∀ vs d0, (∀ v, v ∈ vs → v ∈ keys d0) →
            ∃ d', enforce_node_consistency_loop vs d0 = Ok d').
  { induction vs as [|v vs IH]; intros d0 Hvs; simpl; [eauto |].
    destruct (proj2 (get_is_Some d0 v)) as [dv Hdv].
    { apply Hvs. left. }
    unfold getitem. rewrite Hdv. simpl. apply IH.
    intros v' Hv'. erewrite keys_setitem_get by done.
    apply Hvs. by right. }
  destruct (Htotal (keys d) d) as [d' Hd']; [done |].
  exists d'. split; [done |].
  by eapply enforce_node_consistency_loop_subseteq.
Qed.

(** C9.  What [ac3] returns when its queue has emptied: [False] if the
    domain of some slot is empty, [True] if no domain is empty.  The
    loop has ended within its fuel. *)
Theorem ac3_returns_whether_nonempty (arcs : option (list (Var * Var)))
    (d d' : domains) (b : bool) :
  ac3 cw arcs d = (Ok b, d') →
  ac3_loop cw (ac3_fuel cw (ac3_arcs cw arcs d) d) (ac3_arcs cw arcs d) d
    = Some (Ok b, d') ∧
  (b = false ↔ ∃ v s, v ∈ keys d' ∧ get d' v = Some s ∧ size s = 0%nat) ∧
  (b = true ↔ ∀ v s, v ∈ keys d' → get d' v = Some s → size s ≠ 0%nat).
Proof.
  intros Hac3. pose proof (ac3_unfold cw arcs d) as Hloop.
  rewrite Hac3 in Hloop. split; [done |].
  assert (Hcheck : ac3_check d' (keys d') = Ok b).
  { apply (ac3_loop_invariant cw (λ _ _, True)) in Hloop
      as (arcs' & _ & Hend); [| done | done].
    destruct Hend as [[? _]|(? & ? & ? & ? & _ & [=] & _)]. done. }
  apply ac3_check_spec in Hcheck. split; [done |].
  destruct b.
  - split; [| done]. intros _ v s Hv Hs Hz.
    assert (true = false); [| done]. apply Hcheck. eauto.
  - split; [done |]. intros Hall.
    destruct (proj1 Hcheck eq_refl) as (v & s & Hv & Hs & Hz).
    by destruct (Hall v s).
Qed.

End ArcConsistencyClaims.

(** ** Backtracking search *)

Section BacktrackingClaims.
Context (cw : Crossword).
Import PyDict PyDictFacts.

(** C3.  An assignment that [solve] returns gives a word to every slot
    of the crossword and passes [consistent]: every word has the
    length of its slot, no word is used twice and the words of
    neighbors agree where they cross. *)
Theorem solve_sound (a : assignment) :
  solve cw = Ok (Some a) →
  (∀ v, v ∈ variables cw → is_Some (get a v)) ∧
  consistent cw (init_domains cw) a = Ok true ∧
  satisfies cw a.
Proof.
  unfold solve. intros H. inv_bind_as H d1 Hd1.
  destruct (ac3 cw None d1) as [[b|e] d2] eqn:Hac3; [| done].
  destruct (backtrack cw d2 []) as [[[|]|e] a'] eqn:Hbt; [done | | done].
  injection H as ->.
  pose proof (backtrack_unfold cw d2 []) as Hfuel. rewrite Hbt in Hfuel.
  apply backtrack_fuel_sound in Hfuel as [Hcomp Hcons].
  specialize (Hcons eq_refl).
  assert (Hkeys : keys d2 = keys (init_domains cw)).
  { pose proof (ac3_subseteq cw None d1) as [Hk2 _].
    rewrite Hac3 in Hk2. simpl in Hk2.
    apply enforce_node_consistency_loop_subseteq in Hd1 as [Hk1 _].
    congruence. }
  split_and!.
  - intros v Hv. apply get_is_Some.
    apply (proj1 (assignment_complete_true d2 a) Hcomp).
    rewrite Hkeys. by apply keys_init_domains.
  - by rewrite <- (consistent_keys cw d2).
  - by eapply consistent_sound.
Qed.

(** C10.  When [backtrack(assignment)] returns [None], the assignment
    dictionary holds what it held when the call began: every entry the
    call added has been removed. *)
Theorem backtrack_None_restores (d : domains) (a a' : assignment) :
  backtrack cw d a = (Ok RetNone, a') → a' = a.
Proof.
  intros Hbt. pose proof (backtrack_unfold cw d a) as Hfuel.
  rewrite Hbt in Hfuel. by apply backtrack_fuel_sound in Hfuel.
Qed.

End BacktrackingClaims.

(** ** The properties on the example crosswords *)

Section Examples.
Import PyDict PyDictFacts.

Lemma cross_domains_node_consistent :
  enforce_node_consistency (init_domains cross_crossword) = Ok cross_domains.
Proof. vm_compute. reflexivity. Qed.

Lemma cross_unsat_domains_node_consistent :
  enforce_node_consistency (init_domains cross_unsat_crossword)
  = Ok cross_unsat_domains.
Proof. vm_compute. reflexivity. Qed.

Lemma comb_domains_arc_consistent :
  (d ← enforce_node_consistency (init_domains comb_crossword);
   mret (ac3 comb_crossword None d)) = Ok (Ok true, comb_domains).
Proof. vm_compute. reflexivity. Qed.

(** C1 fails on the code.  [comb_crossword] has the solution
    [comb_solution], made of words of the pool, and [solve] raises
    [TypeError]: the search first gives the down slot the word CXCXC,
    every word then fails for the last across slot, the call on it
    returns [None], and its caller hands that [None] to
    [consistent]. *)
Theorem solve_raises_despite_solution :
  Forall (λ kv, kv.2 ∈ words comb_crossword) comb_solution ∧
  assignment_complete (init_domains comb_crossword) comb_solution = true ∧
  consistent comb_crossword (init_domains comb_crossword) comb_solution
    = Ok true ∧
  solve comb_crossword = Err TypeError.
Proof.
  split_and!; [| by vm_compute | by vm_compute | by vm_compute].
  decide_by_compute.
Qed.

(** The same for every order in which the set of slots can be
    enumerated. *)
Lemma comb_raises_in_any_order :
  forallb (λ vs, match solve (grid_crossword vs comb_words) with
                 | Err TypeError => true
                 | _ => false
                 end)
          (permutations [comb_a; comb_b; comb_c; comb_d]) = true.
Proof. by vm_compute. Qed.

(** C2 fails on the code.  [twin_crossword] has no solution (two slots
    and one word), and [solve] raises [TypeError] where it should
    return [None]: the call of [backtrack] on the second slot returns
    [None] and its caller hands that [None] to [consistent]. *)
Theorem solve_raises_without_solution :
  (∀ a : assignment,
     (∀ v, v ∈ variables twin_crossword →
           ∃ w, get a v = Some w ∧ w ∈ words twin_crossword) →
     consistent twin_crossword (init_domains twin_crossword) a ≠ Ok true) ∧
  solve twin_crossword = Err TypeError.
Proof.
  split; [| by vm_compute].
  intros a Hall Hc%consistent_sound.
  destruct (Hall twin_top) as (w1 & Hg1 & Hw1); [by left |].
  destruct (Hall twin_bottom) as (w2 & Hg2 & Hw2); [right; by left |].
  change (words twin_crossword) with ({[ "CAT" ]} : gset string) in Hw1, Hw2.
  apply elem_of_singleton in Hw1, Hw2. subst.
  by pose proof (sat_unique _ _ Hc _ _ _ Hg1 Hg2).
Qed.

(** C6 fails on the code.  On the pruned domains of [comb_crossword]
    and the empty assignment, the slots [comb_a] and [comb_d] are both
    unassigned with domains of the minimum size 2, [comb_d] has three
    neighbors and [comb_a] one, and [select_unassigned_variable]
    returns [comb_a]: it compares the sets of neighbors by inclusion,
    not their sizes. *)
Theorem select_unassigned_variable_ignores_degree :
  select_unassigned_variable comb_crossword comb_domains []
    = Ok (Some comb_a) ∧
  comb_d ∈ unassigned comb_domains [] ∧
  size <$> get comb_domains comb_a = Some 2%nat ∧
  size <$> get comb_domains comb_d = Some 2%nat ∧
  size (neighbors comb_crossword comb_a) = 1%nat ∧
  size (neighbors comb_crossword comb_d) = 3%nat.
Proof.
  split_and!; try by vm_compute.
  decide_by_compute.
Qed.

(** C7 fails on the code.  In [corner_assignment] the down slot of
    length 3 holds a word of one letter, and [consistent] raises
    [IndexError] where it should return [False]: it reads the third
    letter of that word, as the neighbor of the across slot, before it
    has compared the length of the word with the length of its
    slot. *)
Theorem consistent_raises_on_short_word :
  get corner_assignment corner_down = Some "X" ∧
  var_length corner_down ≠ Z.of_nat (String.length "X") ∧
  consistent corner_crossword (init_domains corner_crossword)
    corner_assignment = Err IndexError.
Proof. split_and!; by vm_compute. Qed.

(** With the short word first in the dictionary the length test comes
    first and the check returns [False]. *)
Lemma consistent_short_word_first :
  consistent corner_crossword (init_domains corner_crossword)
    [(corner_down, "X"); (corner_across, "CAT")] = Ok false.
Proof. by vm_compute. Qed.

(** C5 fails on the code: on [cross_crossword], the turn of the loop
    on the arc from the across slot to the down slot prunes the across
    slot and enqueues the arc from the down slot, the slot it has just
    been revised against. *)
Lemma ac3_step_enqueues_dequeued_neighbor :
  let d' := cross_revised in
  let enqueued := [(cross_down, cross_across)] in
  revise cross_crossword cross_across cross_down cross_domains
    = Ok (true, d') ∧
  ac3_step cross_crossword cross_across cross_down [] cross_domains
    = Ok ([] ++ enqueued, d') ∧
  ¬ (∀ arc, arc ∈ enqueued ↔
            ∃ z, z ∈ neighbors cross_crossword cross_across ∧
                 z ≠ cross_down ∧ arc = (z, cross_across)).
Proof.
  split_and!; [by vm_compute | by vm_compute |].
  intros H. destruct (proj1 (H (cross_down, cross_across))) as (z & _ & Hne & [= <-]);
    [left | done].
Qed.

(** *** The scenarios of the specification *)

Lemma scenario_unsatisfiable :
  solve cross_unsat_crossword = Ok None ∧
  ac3 cross_unsat_crossword None cross_unsat_domains
    = (Ok false, cross_unsat_pruned).
Proof. split; by vm_compute. Qed.

Lemma scenario_no_neighbors :
  solve single_crossword = Ok (Some [(single_slot, "DOGS")]).
Proof. by vm_compute. Qed.

(** *** The theorems at work on the examples *)

(** [solve] on [cross_crossword]. *)
Lemma solve_sound_witness :
  solve cross_crossword
    = Ok (Some [(cross_across, "CAT"); (cross_down, "ART")]) ∧
  satisfies cross_crossword [(cross_across, "CAT"); (cross_down, "ART")].
Proof.
  assert (H : solve cross_crossword
              = Ok (Some [(cross_across, "CAT"); (cross_down, "ART")]))
    by (vm_compute; reflexivity).
  split; [exact H |]. apply (solve_sound cross_crossword _ H).
Defined.

(** [ac3] on [cross_domains]: CAT in the across slot has ART in the
    down slot. *)
Lemma ac3_arc_consistent_witness :
  ac3 cross_crossword None cross_domains = (Ok true, cross_pruned) ∧
  ∃ i j dy v ch,
    overlaps cross_crossword cross_across cross_down = Overlap i j ∧
    get cross_pruned cross_down = Some dy ∧ v ∈ dy ∧
    str_getitem "CAT" i = Ok ch ∧ str_getitem v j = Ok ch.
Proof.
  assert (H : ac3 cross_crossword None cross_domains
              = (Ok true, cross_pruned)) by (vm_compute; reflexivity).
  split; [exact H |].
  apply (ac3_arc_consistent cross_crossword cross_domains cross_pruned
           cross_across cross_down) with (dx := ({[ "CAT" ]} : gset string)).
  - decide_by_compute.
  - exact H.
  - decide_by_compute.
  - decide_by_compute.
  - vm_compute; reflexivity.
  - by apply elem_of_singleton.
Defined.

(** The first turn of the loop on [cross_domains]. *)
Lemma ac3_step_enqueues_all_neighbors_witness :
  ∃ enqueued,
    [(cross_down, cross_across)] = [] ++ enqueued ∧ NoDup enqueued ∧
    (∀ arc, arc ∈ enqueued ↔
            ∃ z, z ∈ neighbors cross_crossword cross_across
                 ∧ arc = (z, cross_across)) ∧
    (cross_down ∈ neighbors cross_crossword cross_across →
     (cross_down, cross_across) ∈ enqueued).
Proof.
  apply (ac3_step_enqueues_all_neighbors cross_crossword cross_across
           cross_down [] _ cross_domains cross_revised cross_revised).
  - vm_compute; reflexivity.
  - vm_compute; reflexivity.
Defined.

(** Pruning on [cross_crossword]. *)
Lemma domains_only_pruned_witness :
  domains_subseteq (ac3 cross_crossword None cross_domains).2 cross_domains ∧
  ∃ d', enforce_node_consistency (init_domains cross_crossword) = Ok d'
        ∧ domains_subseteq d' (init_domains cross_crossword).
Proof.
  split.
  - apply (domains_only_pruned cross_crossword None cross_domains).
  - apply (domains_only_pruned cross_crossword None
             (init_domains cross_crossword)).
Defined.

(** [ac3] empties the domains of [cross_unsat_crossword] and returns
    [False]. *)
Lemma ac3_returns_whether_nonempty_witness :
  ac3 cross_unsat_crossword None cross_unsat_domains
    = (Ok false, cross_unsat_pruned) ∧
  ∃ v s, v ∈ keys cross_unsat_pruned ∧ get cross_unsat_pruned v = Some s
         ∧ size s = 0%nat.
Proof.
  assert (H : ac3 cross_unsat_crossword None cross_unsat_domains
              = (Ok false, cross_unsat_pruned)) by (vm_compute; reflexivity).
  split; [exact H |].
  apply (ac3_returns_whether_nonempty cross_unsat_crossword None
           cross_unsat_domains cross_unsat_pruned false H).
  reflexivity.
Defined.

(** On [twin_crossword] with CAT in the first slot, [backtrack] tries
    CAT for the second, removes it and returns [None]. *)
Lemma backtrack_None_restores_witness :
  ∃ a', backtrack twin_crossword twin_domains [(twin_top, "CAT")]
        = (Ok RetNone, a') ∧ a' = [(twin_top, "CAT")].
Proof.
  exists [(twin_top, "CAT")].
  assert (H : backtrack twin_crossword twin_domains [(twin_top, "CAT")]
              = (Ok RetNone, [(twin_top, "CAT")]))
    by (vm_compute; reflexivity).
  split; [exact H |].
  apply (backtrack_None_restores twin_crossword twin_domains _ _ H).
Defined.

End Examples.

(** * Further properties of the code *)

(** ** Pruning *)

Section Pruning.
Context (cw : Crossword).
Import PyDict PyDictFacts.

Lemma node_consistent_options_keeps variable ws (s : gset string) w :
  w ∈ s →
  (w ∈ ws → Z.of_nat (String.length w) = var_length variable) →
  w ∈ foldl (λ options word,
               if decide (Z.of_nat (String.length word) ≠ var_length variable)
               then options ∖ {[ word ]} else options) s ws.
Proof.
  revert s. induction ws as [|u ws IH]; intros s Hs Hlen; simpl; [done |].
  apply IH; [| intros; apply Hlen; by right].
  case_decide as Hu; [| done].
  apply elem_of_difference. split; [done |].
  intros ->%elem_of_singleton. apply Hu, Hlen. left.
Qed.

Lemma elem_of_node_consistent_options variable dv w :
  w ∈ node_consistent_options variable dv ↔
  w ∈ dv ∧ Z.of_nat (String.length w) = var_length variable.
Proof.
  split.
  - intros Hw. split; [by apply (node_consistent_options_subseteq variable) |].
    eapply node_consistent_options_spec; [done |].
    apply elem_of_elements.
    by apply (node_consistent_options_subseteq variable).
  - intros [Hw Hlen]. by apply node_consistent_options_keeps.
Qed.

Lemma enforce_node_consistency_loop_Ok vs d :
  (∀ v, v ∈ vs → v ∈ keys d) →
  ∃ d', enforce_node_consistency_loop vs d = Ok d'.
Proof.
  revert d. induction vs as [|v vs IH]; intros d Hvs; simpl; [eauto |].
  destruct (proj2 (get_is_Some d v)) as [dv Hdv]; [apply Hvs; left |].
  unfold getitem. rewrite Hdv. simpl. apply IH.
  intros v' Hv'. erewrite keys_setitem_get by done. apply Hvs. by right.
Qed.

Lemma enforce_node_consistency_loop_exact vs d d' x s :
  enforce_node_consistency_loop vs d = Ok d' → get d x = Some s →
  ∃ s', get d' x = Some s' ∧
    (x ∉ vs → s' = s) ∧
    (x ∈ vs → ∀ w, w ∈ s' ↔
                   w ∈ s ∧ Z.of_nat (String.length w) = var_length x).
Proof.
  revert d s. induction vs as [|v vs IH]; intros d s; simpl.
  - intros [= <-] Hx. exists s. split_and!; [done | done |].
    by intros ?%elem_of_nil.
  - intros H Hx. inv_bind_as H dv Hdv. apply getitem_Ok in Hdv.
    destruct (decide (x = v)) as [->|Hne].
    + assert (dv = s) as -> by congruence.
      destruct (IH _ (node_consistent_options v s) H) as (s' & Hs' & Hout & Hin).
      { apply get_setitem_eq. }
      exists s'. split_and!; [done | |].
      * intros Hn. destruct Hn. left.
      * intros _ w. destruct (decide (v ∈ vs)) as [Hv|Hv].
        -- rewrite (Hin Hv), elem_of_node_consistent_options. naive_solver.
        -- rewrite (Hout Hv). apply elem_of_node_consistent_options.
    + destruct (IH _ s H) as (s' & Hs' & Hout & Hin).
      { by rewrite get_setitem_ne. }
      exists s'. split_and!; [done | |].
      * intros Hn. apply Hout. intros ?. apply Hn. by right.
      * intros [?|?]%elem_of_cons; [done | by apply Hin].
Qed.

(** X1.  [enforce_node_consistency] raises nothing, keeps the slots, and
    leaves in the domain of every slot exactly the words it had whose
    length is the length of the slot. *)
Theorem enforce_node_consistency_exact (d : domains) :
  ∃ d', enforce_node_consistency d = Ok d' ∧ keys d' = keys d ∧
    ∀ x s, get d x = Some s →
      ∃ s', get d' x = Some s' ∧
        ∀ w, w ∈ s' ↔ w ∈ s ∧ Z.of_nat (String.length w) = var_length x.
Proof.
  destruct (enforce_node_consistency_loop_Ok (keys d) d) as [d' Hd'];
    [done |].
  exists d'. split_and!; [done | |].
  - by apply enforce_node_consistency_loop_subseteq in Hd' as [? _].
  - intros x s Hx.
    destruct (enforce_node_consistency_loop_exact _ _ _ _ _ Hd' Hx)
      as (s' & Hs' & _ & Hin).
    exists s'. split; [done |]. apply Hin, get_is_Some. eauto.
Qed.

(** *** [revise] *)

Lemma revise_count_match xvalue i j ys c c' :
  revise_count xvalue i j ys c = Ok c' →
  (∃ v, v ∈ ys ∧ chars_equal xvalue i v j = Ok true) → c < c'.
Proof.
  revert c. induction ys as [|y ys IH]; intros c; simpl.
  - by intros _ (v & ?%elem_of_nil & _).
  - intros H (v & Hv & Heq). inv_bind_as H eq Ha.
    apply elem_of_cons in Hv as [->|Hv].
    + assert (eq = true) as -> by congruence.
      apply revise_count_spec in H as [? _]. lia.
    + assert (c ≤ if eq then c + 1 else c) by (destruct eq; lia).
      assert ((if eq then c + 1 else c) < c'); [| lia].
      apply IH; [done | eauto].
Qed.

Lemma revise_loop_keeps d y i j xs xval revised r xval' w :
  revise_loop d y i j xs xval revised = Ok (r, xval') →
  w ∈ xval →
  (w ∈ xs →
   ∃ dy v, get d y = Some dy ∧ v ∈ dy ∧ chars_equal w i v j = Ok true) →
  w ∈ xval'.
Proof.
  revert xval revised. induction xs as [|x xs IH]; intros xval revised; simpl.
  - by intros [= <- <-].
  - intros H Hw Hsup. inv_bind_as H dy Hdy. inv_bind_as H counter Hc.
    apply getitem_Ok in Hdy.
    assert (Hrest : w ∈ xs → ∃ dy v, get d y = Some dy ∧ v ∈ dy
                                     ∧ chars_equal w i v j = Ok true)
      by (intros; apply Hsup; by right).
    case_decide as Hz; [| by eapply IH].
    eapply IH; [done | | done].
    apply elem_of_difference. split; [done |].
    intros ->%elem_of_singleton.
    destruct Hsup as (dy' & v & Hy & Hv & Heq); [left |].
    assert (dy' = dy) as -> by congruence.
    assert (0 < counter); [| lia].
    eapply revise_count_match; [done |].
    exists v. split; [by apply elem_of_elements | done].
Qed.

Lemma revise_keeps_supported x y d revised d' dx w :
  revise cw x y d = Ok (revised, d') →
  get d x = Some dx → w ∈ dx → supported cw d x y w →
  ∃ xval, get d' x = Some xval ∧ w ∈ xval.
Proof.
  intros Hr Hx Hw (i & j & dy & v & ch & Ho & Hy & Hv & Hi & Hj).
  unfold revise in Hr. inv_bind_as Hr dx' Hdx. apply getitem_Ok in Hdx.
  assert (dx' = dx) as -> by congruence.
  inv_bind_as Hr ij Hij. unfold overlaps_getitem in Hij. rewrite Ho in Hij.
  injection Hij as <-. inv_bind_as Hr rx Hloop. destruct rx as [r xval].
  injection Hr as _ <-. exists xval. split; [apply get_setitem_eq |].
  eapply revise_loop_keeps; [done | done |].
  intros _. exists dy, v. split_and!; [done | done |].
  apply chars_equal_true. eauto.
Qed.

Lemma revise_consistent_arc x y d revised d' :
  arc_consistent cw d x y →
  revise cw x y d = Ok (revised, d') → revised = false ∧ d' = d.
Proof.
  intros Hac Hr.
  destruct (revise_spec cw _ _ _ _ _ Hr)
    as (dx & xval & Hx & Hd' & Hsub & Hf & Ht & Hsup).
  assert (Heq : xval = dx).
  { apply set_eq. intros w. split; [set_solver |]. intros Hw.
    destruct (revise_keeps_supported _ _ _ _ _ _ _ Hr Hx Hw) as (xv & Hxv & ?).
    { by apply (Hac dx). }
    rewrite Hd', get_setitem_eq in Hxv. congruence. }
  destruct revised.
  - destruct (Ht eq_refl) as [_ Hn]. destruct Hn. by rewrite Heq.
  - split; [done |]. rewrite Hd', Heq. by apply setitem_id.
Qed.

(** X2.  What [revise(x, y)] does when it raises nothing: the domain of
    [x] keeps exactly its words that have a partner in the domain of
    [y], no other domain changes, and the value returned tells whether
    a word was removed. *)
Theorem revise_exact (x y : Var) (d d' : domains) (revised : bool) :
  revise cw x y d = Ok (revised, d') →
  ∃ dx xval,
    get d x = Some dx ∧ get d' x = Some xval ∧
    (∀ w, w ∈ xval ↔ w ∈ dx ∧ supported cw d x y w) ∧
    (∀ z, z ≠ x → get d' z = get d z) ∧
    keys d' = keys d ∧
    (revised = true ↔ xval ≠ dx) ∧
    (revised = false → d' = d).
Proof.
  intros Hr.
  destruct (revise_spec cw _ _ _ _ _ Hr)
    as (dx & xval & Hx & Hd' & Hsub & Hf & Ht & Hsup).
  exists dx, xval. split_and!; [done | | | | | |].
  - rewrite Hd'. apply get_setitem_eq.
  - intros w. split; [intros Hw; split; [set_solver | by apply Hsup] |].
    intros [Hw Hs].
    destruct (revise_keeps_supported _ _ _ _ _ _ _ Hr Hx Hw Hs)
      as (xv & Hxv & ?).
    rewrite Hd', get_setitem_eq in Hxv. congruence.
  - intros z Hz. rewrite Hd'. by apply get_setitem_ne.
  - rewrite Hd'. by eapply keys_setitem_get.
  - split.
    + intros Hrev Heq. destruct (Ht Hrev) as [_ Hn]. apply Hn. by rewrite Heq.
    + intros Hne. destruct revised; [done |]. by destruct Hne, Hf.
  - intros Hrev. rewrite Hd', (Hf Hrev). by apply setitem_id.
Qed.

(** *** [ac3] *)

Lemma revise_loop_reads_y d y i j xs xval revised r :
  revise_loop d y i j xs xval revised = Ok r → xs ≠ [] →
  ∃ dy, get d y = Some dy.
Proof.
  destruct xs as [|x xs]; [done |]. simpl. intros H _.
  inv_bind_as H dy Hdy. apply getitem_Ok in Hdy. eauto.
Qed.

Lemma revise_keeps_solution x y d revised d' a :
  solution_within cw d a →
  revise cw x y d = Ok (revised, d') → solution_within cw d' a.
Proof.
  intros [Hin Hagree] Hr.
  destruct (revise_spec cw _ _ _ _ _ Hr)
    as (dx & xval & Hx & Hd' & _).
  assert (Hk : keys d' = keys d) by (rewrite Hd'; by eapply keys_setitem_get).
  split; [| rewrite Hk; apply Hagree].
  intros z Hz. rewrite Hk in Hz. destruct (Hin z Hz) as (w & s & Haz & Hdz & Hw).
  destruct (decide (z = x)) as [->|Hne];
    [| exists w, s; by rewrite Hd', get_setitem_ne].
  assert (s = dx) as -> by congruence.
  destruct (revise_keeps_supported x y d revised d' dx w) as (xv & Hxv & ?);
    [done | done | done | | by exists w, xv].
  pose proof Hr as Hr'. unfold revise in Hr'.
  inv_bind_as Hr' dx' Hdx. apply getitem_Ok in Hdx.
  assert (dx' = dx) as -> by congruence.
  inv_bind_as Hr' ij Hij. destruct ij as [i j].
  inv_bind_as Hr' rx Hloop.
  apply revise_loop_reads_y in Hloop as [dy Hdy].
  2:{ intros Hnil. apply elem_of_elements in Hw. rewrite Hnil in Hw.
      by apply elem_of_nil in Hw. }
  unfold overlaps_getitem in Hij.
  destruct (overlaps cw x y) as [| |i' j'] eqn:Ho; try done.
  injection Hij as -> ->.
  destruct (Hagree x y i j) as (wx & wy & ch & Hax & Hay & Hi & Hj);
    [done | apply get_is_Some; eauto | done |].
  assert (wx = w) as -> by congruence.
  destruct (Hin y) as (wy' & sy & Hay' & Hdy' & Hwy);
    [apply get_is_Some; eauto |].
  assert (wy' = wy) as -> by congruence.
  by exists i, j, sy, wy, ch.
Qed.

(** X3.  [ac3] never removes a word of a solution: an assignment that
    takes every slot's word from its domain, and whose words agree at
    every overlap of the table, still takes every word from the domains
    [ac3] leaves, with any queue of arcs and also when [ac3] raises. *)
Theorem ac3_keeps_solutions (arcs : option (list (Var * Var)))
    (d : domains) (a : assignment) :
  solution_within cw d a → solution_within cw (ac3 cw arcs d).2 a.
Proof.
  intros Hsol. pose proof (ac3_unfold cw arcs d) as Hloop.
  destruct (ac3 cw arcs d) as [r d']. simpl.
  apply (ac3_loop_invariant cw (λ _ d1, solution_within cw d1 a))
    in Hloop as (_ & ? & _); [done | | done].
  intros v p rest d1 arcs1 d2 Hd1 (revised & Hr & _)%ac3_step_Ok.
  by eapply revise_keeps_solution.
Qed.

(** X4.  On domains in which every queued arc is already consistent,
    [ac3] changes nothing. *)
Theorem ac3_consistent_arcs_unchanged (arcs : option (list (Var * Var)))
    (d : domains) :
  (∀ x y, (x, y) ∈ ac3_arcs cw arcs d → arc_consistent cw d x y) →
  (ac3 cw arcs d).2 = d.
Proof.
  intros Hall. pose proof (ac3_unfold cw arcs d) as Hloop.
  destruct (ac3 cw arcs d) as [r d']. simpl.
  apply (ac3_loop_invariant cw
           (λ arcs1 d1, d1 = d ∧
                        ∀ x y, (x, y) ∈ arcs1 → arc_consistent cw d x y))
    in Hloop as (_ & [? _] & _); [done | | done].
  intros v p rest d1 arcs1 d2 [-> Harcs] (revised & Hr & ->)%ac3_step_Ok.
  destruct (revise_consistent_arc v p d revised d2) as [-> ->];
    [apply Harcs; left | done |].
  split; [done |]. intros x y Hin. apply Harcs. by right.
Qed.

(** X5.  [ac3()] is idempotent on the domains: after a call that
    returned, a second call leaves the domains as they are. *)
Theorem ac3_idempotent (d d' : domains) (b : bool) :
  neighbors_symmetric cw (keys d) →
  ac3 cw None d = (Ok b, d') →
  (ac3 cw None d').2 = d'.
Proof.
  intros Hsym Hac3.
  pose proof (ac3_unfold cw None d) as Hloop. rewrite Hac3 in Hloop.
  pose proof (ac3_loop_arc_consistent cw _ _ _ _ Hsym Hloop) as Hcons.
  pose proof (ac3_unfold cw None d') as Hloop'.
  destruct (ac3 cw None d') as [r d'']. simpl.
  apply (ac3_loop_invariant cw
           (λ arcs1 d1, d1 = d' ∧
                        ∀ x y, (x, y) ∈ arcs1 → arc_consistent cw d' x y))
    in Hloop' as (_ & [? _] & _); [done | |].
  - intros v p rest d1 arcs1 d2 [-> Harcs] (revised & Hr & ->)%ac3_step_Ok.
    destruct (revise_consistent_arc v p d' revised d2) as [-> ->];
      [apply Harcs; left | done |].
    split; [done |]. intros x y Hin. apply Harcs. by right.
  - split; [done |]. intros x y Hin. unfold ac3_arcs, all_arcs in Hin.
    apply list_elem_of_bind in Hin as (x' & Hin & Hx').
    apply list_elem_of_bind in Hin as (y' & Hin & Hy'%elem_of_elements).
    apply list_elem_of_singleton in Hin as [= -> ->]. by apply Hcons.
Qed.

(** X6.  On a graph that is well formed on the slots and domains whose
    words have the lengths of their slots, [ac3()] raises no exception:
    it returns [True] or [False]. *)
Theorem ac3_raises_nothing (d : domains) :
  graph_wf cw d → node_consistent d →
  ∃ b d', ac3 cw None d = (Ok b, d').
Proof. apply ac3_returns. Qed.

(** X7.  The [while] loop of [ac3] ends: from any queue and any domains
    it takes fewer turns than the length of the queue plus the number
    of words in the domains times one more than the largest number of
    neighbors of a slot. *)
Theorem ac3_loop_bounded (arcs : list (Var * Var)) (d : domains)
    (fuel : nat) :
  (length arcs + total_size d * S (max_degree cw d) < fuel)%nat →
  ∃ r d', ac3_loop cw fuel arcs d = Some (r, d').
Proof.
  intros Hlt. destruct (ac3_loop_terminates cw fuel arcs d Hlt) as [[r d'] H].
  eauto.
Qed.

End Pruning.

(** ** The consistency check on well-formed assignments *)

Section ConsistencyFurther.
Context (cw : Crossword).
Import PyDict PyDictFacts.

(** X8.  [consistent] returns [True] only on an assignment in which
    every word has the length of its slot, no word is used twice and
    the words of assigned neighbors agree where they cross; on any
    other assignment it returns [False] or raises. *)
Theorem consistent_True_only_if_satisfied (d : domains) (a : assignment) :
  consistent cw d a = Ok true → satisfies cw a.
Proof. apply consistent_sound. Qed.

(** X9.  On an assignment whose words have the lengths of their slots
    (over a well-formed graph, the dictionary having each slot once)
    [consistent] raises nothing and decides the constraints: it returns
    [True] when no word is used twice and assigned neighbors agree, and
    [False] otherwise. *)
Theorem consistent_decides (d : domains) (a : assignment) :
  NoDup (keys a) → assigned_graph_wf cw d a →
  (∀ v u, get a v = Some u → var_length v = Z.of_nat (String.length u)) →
  ∃ b, consistent cw d a = Ok b ∧ (b = true ↔ satisfies cw a).
Proof.
  intros Hnd Hwf Hlen.
  destruct (consistent_returns cw d a Hwf Hlen) as [b Hb].
  exists b. split; [done |]. split.
  - intros ->. by eapply consistent_sound.
  - intros Hsat. rewrite (consistent_complete cw d a Hnd Hwf Hsat) in Hb.
    congruence.
Qed.

(** X10.  [consistent] reads the domains for their slots only: pruning
    the domains does not change its answer. *)
Theorem consistent_ignores_domain_words (d d' : domains) (a : assignment) :
  keys d = keys d' → consistent cw d a = consistent cw d' a.
Proof. apply consistent_keys. Qed.

End ConsistencyFurther.

(** ** The heuristics *)

Section Heuristics.
Context (cw : Crossword).
Import PyDict PyDictFacts.

Lemma select_loop_Ok d options min minval :
  (∀ o, o ∈ options → o ∈ keys d) →
  ∃ var, select_loop cw d options min minval = Ok var.
Proof.
  revert min minval. induction options as [|o options IH];
    intros min minval Hall; simpl; [eauto |].
  destruct (proj2 (get_is_Some d o)) as [s Hs]; [apply Hall; left |].
  unfold getitem. rewrite Hs. simpl.
  repeat case_decide; apply IH; intros; apply Hall; by right.
Qed.

Lemma select_unassigned_variable_cases (d : domains) (a : assignment) :
  ∃ r, select_unassigned_variable cw d a = Ok r ∧
    (r = None ↔ assignment_complete d a = true) ∧
    ∀ var, r = Some var →
      var ∈ keys d ∧ (var ∉ keys a) ∧
      ∃ svar, get d var = Some svar ∧
        ∀ o so, o ∈ keys d → o ∉ keys a → get d o = Some so →
                (size svar ≤ size so)%nat.
Proof.
  assert (Hcomp : unassigned d a = [] ↔ assignment_complete d a = true).
  { rewrite assignment_complete_true. split.
    - intros Hnil v Hv. destruct (decide (v ∈ keys a)) as [|Hn]; [done |].
      assert (Hin : v ∈ unassigned d a) by (by apply elem_of_unassigned).
      rewrite Hnil in Hin. by apply elem_of_nil in Hin.
    - intros Hall. destruct (unassigned d a) as [|v l] eqn:Hu; [done |].
      assert (Hin : v ∈ unassigned d a) by (rewrite Hu; left).
      apply elem_of_unassigned in Hin as [Hd Hn]. destruct Hn. by apply Hall. }
  destruct (select_unassigned_variable cw d a) as [r|e] eqn:Hsel.
  - exists r. split; [done |]. split.
    + rewrite <- Hcomp. unfold select_unassigned_variable in Hsel.
      destruct (unassigned d a) as [|min options]; [naive_solver |].
      inv_bind_as Hsel s Hs. apply fmap_Ok in Hsel as (v & _ & ->).
      naive_solver.
    + intros var ->.
      pose proof (select_unassigned_variable_elem_of _ _ _ _ Hsel)
        as [Hd Hn]%elem_of_unassigned.
      destruct (select_unassigned_variable_minimum _ _ _ _ Hsel)
        as (svar & Hsvar & Hmin).
      split_and!; [done | done |]. exists svar. split; [done |].
      intros o so Ho Hno. apply Hmin. by apply elem_of_unassigned.
  - exfalso. unfold select_unassigned_variable in Hsel.
    destruct (unassigned d a) as [|min options] eqn:Hu; [done |].
    assert (Hin : ∀ o, o ∈ min :: options → o ∈ keys d).
    { intros o Ho. rewrite <- Hu in Ho.
      by apply elem_of_unassigned in Ho as [? _]. }
    destruct (proj2 (get_is_Some d min)) as [s Hs]; [apply Hin; left |].
    unfold getitem in Hsel. rewrite Hs in Hsel. simpl in Hsel.
    destruct (select_loop_Ok d options min (Z.of_nat (size s))) as [v Hv].
    { intros; apply Hin; by right. }
    by rewrite Hv in Hsel.
Qed.

(** X11.  [select_unassigned_variable] raises nothing; it returns [None]
    exactly when the assignment is complete, and otherwise a slot that
    is not assigned and whose domain is not larger than the domain of
    any other unassigned slot. *)
Theorem select_unassigned_variable_spec (d : domains) (a : assignment) :
  ∃ r, select_unassigned_variable cw d a = Ok r ∧
    (r = None ↔ assignment_complete d a = true) ∧
    ∀ var, r = Some var →
      var ∈ keys d ∧ (var ∉ keys a) ∧
      ∃ svar, get d var = Some svar ∧
        ∀ o so, o ∈ keys d → o ∉ keys a → get d o = Some so →
                (size svar ≤ size so)%nat.
Proof. apply select_unassigned_variable_cases. Qed.

(** *** [order_domain_values] *)

Lemma insert_by_key_perm k w l : insert_by_key k w l ≡ₚ (k, w) :: l.
Proof.
  induction l as [|[k' w'] l IH]; simpl; [done |].
  case_decide; [done |]. rewrite IH. apply Permutation_swap.
Qed.

Lemma sort_by_key_perm l : sort_by_key l ≡ₚ l.
Proof.
  unfold sort_by_key.
  assert (H : ∀ acc, foldl (λ acc kw, insert_by_key kw.1 kw.2 acc) acc l
                     ≡ₚ l ++ acc).
  { induction l as [|[k w] l IH]; intros acc; simpl; [done |].
    rewrite IH, insert_by_key_perm. by rewrite Permutation_middle. }
  rewrite H. by rewrite app_nil_r.
Qed.

Lemma insert_by_key_sorted k w l :
  keys_sorted l → keys_sorted (insert_by_key k w l).
Proof.
  unfold keys_sorted. induction 1 as [|[k' w'] l Hs IH Hall]; simpl.
  - repeat constructor.
  - case_decide as Hlt.
    + constructor; [by constructor |]. constructor; [simpl; lia |].
      eapply Forall_impl; [done |]. simpl. intros; lia.
    + constructor; [done |].
      rewrite insert_by_key_perm. constructor; [simpl; lia | done].
Qed.

Lemma sort_by_key_sorted l : keys_sorted (sort_by_key l).
Proof.
  unfold sort_by_key.
  assert (H : ∀ acc, keys_sorted acc →
                keys_sorted (foldl (λ acc kw, insert_by_key kw.1 kw.2 acc)
                               acc l)).
  { induction l as [|[k w] l IH]; intros acc Hacc; simpl; [done |].
    by apply IH, insert_by_key_sorted. }
  apply H. constructor.
Qed.

Lemma sort_keys_spec d var ordered keyed :
  sort_keys cw d var ordered = Ok keyed →
  keyed.*2 = ordered ∧
  Forall (λ kw, sort cw d kw.2 var = Ok kw.1) keyed.
Proof.
  revert keyed. induction ordered as [|x ordered IH]; intros keyed; simpl.
  - intros [= <-]. by split.
  - intros H. inv_bind_as H k Hk. inv_bind_as H rest Hrest.
    injection H as <-. destruct (IH _ Hrest) as [<- Hall].
    split; [done |]. by constructor.
Qed.

Lemma order_domain_values_spec d var a vals :
  order_domain_values cw d var a = Ok vals →
  ∃ dv, get d var = Some dv ∧ vals ≡ₚ elements dv ∧
    ∃ ks, Forall2 (λ w k, sort cw d w var = Ok k) vals ks ∧
          StronglySorted Z.le ks.
Proof.
  unfold order_domain_values. intros H. inv_bind_as H dv Hdv.
  apply getitem_Ok in Hdv. inv_bind_as H keyed Hkeyed. injection H as <-.
  destruct (sort_keys_spec _ _ _ _ Hkeyed) as [Hsnd Hall].
  exists dv. split_and!; [done | |].
  - by rewrite sort_by_key_perm, Hsnd.
  - exists (sort_by_key keyed).*1. split.
    + apply Forall2_fmap_r, Forall2_fmap_l, Forall_Forall2_diag.
      by rewrite sort_by_key_perm.
    + pose proof (sort_by_key_sorted keyed) as Hs. unfold keys_sorted in Hs.
      induction Hs as [|p l Hs IH Hp]; simpl; constructor; [done |].
      by apply Forall_fmap.
Qed.

(** X12.  [order_domain_values] returns the words of the domain of the
    slot, each once and none other, in ascending order of the number
    [sort] gives them. *)
Theorem order_domain_values_sorted_permutation (d : domains) (var : Var)
    (a : assignment) (vals : list string) :
  order_domain_values cw d var a = Ok vals →
  ∃ dv, get d var = Some dv ∧ NoDup vals ∧ (∀ w, w ∈ vals ↔ w ∈ dv) ∧
    ∃ ks, Forall2 (λ w k, sort cw d w var = Ok k) vals ks ∧
          StronglySorted Z.le ks.
Proof.
  intros (dv & Hdv & Hperm & Hks)%order_domain_values_spec.
  exists dv. split_and!; [done | | | done].
  - rewrite Hperm. apply NoDup_elements.
  - intros w. rewrite Hperm. apply elem_of_elements.
Qed.

(** *** The key [sort] *)

Lemma size_filter_elements (P : string → Prop) `{!∀ x, Decision (P x)}
    (X : gset string) :
  size (filter P X) = length (filter P (elements X)).
Proof.
  unfold size, set_size. simpl. apply Permutation_length.
  apply NoDup_Permutation.
  - apply NoDup_elements.
  - apply NoDup_filter, NoDup_elements.
  - intros x. rewrite elem_of_elements, elem_of_filter, list_elem_of_filter.
    by rewrite elem_of_elements.
Qed.

Lemma sort_count_spec word i j vals num num' :
  sort_count word i j vals num = Ok num' →
  num' = num + Z.of_nat (length (filter (λ val, chars_equal word i val j
                                                = Ok false) vals)).
Proof.
  revert num. induction vals as [|val vals IH]; intros num; simpl.
  - intros [= <-]. lia.
  - intros H. inv_bind_as H eq Heq. rewrite (IH _ H).
    rewrite filter_cons. destruct eq.
    + rewrite decide_False by congruence. lia.
    + rewrite decide_True by done. simpl. lia.
Qed.

Lemma sort_loop_spec d word var matches num n :
  sort_loop cw d word var matches num = Ok n →
  n = num + Z.of_nat (sum_list ((λ m, size (ruled_out cw d word var m))
                                <$> matches)).
Proof.
  revert num. induction matches as [|m matches IH]; intros num; simpl.
  - intros [= <-]. lia.
  - intros H. inv_bind_as H ij Hij. destruct ij as [i j].
    inv_bind_as H dm Hdm. apply getitem_Ok in Hdm.
    inv_bind_as H num1 Hnum1. rewrite (IH _ H).
    apply sort_count_spec in Hnum1 as ->.
    unfold overlaps_getitem in Hij.
    destruct (overlaps cw var m) as [| |i' j'] eqn:Ho; try done.
    injection Hij as -> ->. csimpl.
    assert (Hsz : size (ruled_out cw d word var m)
                  = length (filter (λ val, chars_equal word i val j = Ok false)
                              (elements dm))).
    { unfold ruled_out. rewrite Ho, Hdm. apply size_filter_elements. }
    rewrite Hsz, Nat2Z.inj_add. unfold fmap. lia.
Qed.

(** X13.  The number [sort] gives a word of a slot is the number of
    words it rules out: the sum, over the neighbors of the slot, of the
    number of words in the neighbor's domain that differ from the word
    at the overlap. *)
Theorem sort_counts_ruled_out (d : domains) (word : string) (var : Var)
    (n : Z) :
  sort cw d word var = Ok n →
  n = Z.of_nat (sum_list ((λ m, size (ruled_out cw d word var m))
                          <$> elements (neighbors cw var))).
Proof. intros H. apply sort_loop_spec in H. lia. Qed.

End Heuristics.

(** ** The search *)

Section Search.
Context (cw : Crossword).
Import PyDict PyDictFacts.

(** *** The recursion without its fuel *)

Lemma backtrack_loop_mono rec1 rec2 d var vals a r :
  (∀ a1 r1, rec1 a1 = Some r1 → rec2 a1 = Some r1) →
  backtrack_loop cw rec1 d var vals a = Some r →
  backtrack_loop cw rec2 d var vals a = Some r.
Proof.
  intros Hrec. revert a. induction vals as [|value vals IH]; intros a; simpl;
    [done |].
  destruct (consistent cw d (setitem a var value)) as [[]|]; [| | done].
  - destruct (rec1 (setitem a var value)) as [[[r1|e] a2]|] eqn:Hr1; [| | done].
    + rewrite (Hrec _ _ Hr1).
      destruct (consistent_retval cw d r1 a2) as [[]|]; [done | | done].
      destruct (pop a2 var); [apply IH | done].
    + by rewrite (Hrec _ _ Hr1).
  - destruct (pop (setitem a var value) var); [apply IH | done].
Qed.

Lemma backtrack_fuel_mono n m d a r :
  (n ≤ m)%nat →
  backtrack_fuel cw n d a = Some r → backtrack_fuel cw m d a = Some r.
Proof.
  revert m a r. induction n as [|n IH]; intros m a r Hle; simpl; [done |].
  destruct m as [|m]; [lia |]. simpl.
  destruct (assignment_complete d a); [done |].
  destruct (select_unassigned_variable cw d a) as [[var|]|]; [| done | done].
  destruct (order_domain_values cw d var a) as [vals|]; [| done].
  apply backtrack_loop_mono. intros a1 r1. apply IH. lia.
Qed.

Lemma backtrack_fuel_backtrack n d a r :
  backtrack_fuel cw n d a = Some r → r = backtrack cw d a.
Proof.
  intros Hn. pose proof (backtrack_unfold cw d a) as Hu.
  apply (backtrack_fuel_mono _ (n `max` S (length (unassigned d a))))
    in Hn, Hu; [| lia | lia].
  congruence.
Qed.

(** One level of [backtrack] on an assignment that is not complete,
    with the recursive calls as calls of [backtrack]. *)
Lemma backtrack_step d a var vals :
  assignment_complete d a = false →
  select_unassigned_variable cw d a = Ok (Some var) →
  order_domain_values cw d var a = Ok vals →
  backtrack_loop cw (λ a1, Some (backtrack cw d a1)) d var vals a
  = Some (backtrack cw d a).
Proof.
  intros Hcomp Hsel Hord. pose proof (backtrack_unfold cw d a) as Hu.
  simpl in Hu. rewrite Hcomp, Hsel, Hord in Hu.
  eapply backtrack_loop_mono; [| done].
  intros a1 r1 ->%backtrack_fuel_backtrack. done.
Qed.

Lemma backtrack_sound d a r a' :
  backtrack cw d a = (Ok r, a') → backtrack_post cw d a r a'.
Proof.
  intros H. pose proof (backtrack_unfold cw d a) as Hu. rewrite H in Hu.
  by apply backtrack_fuel_sound in Hu.
Qed.

(** *** The loop over the values *)

Lemma backtrack_loop_commits d var pre value post a :
  var ∉ keys a →
  Forall (λ p, consistent cw d (setitem a var p) = Ok false) pre →
  consistent cw d (setitem a var value) = Ok true →
  backtrack_loop cw (λ a1, Some (backtrack cw d a1)) d var
    (pre ++ value :: post) a
  = Some match backtrack cw d (setitem a var value) with
         | (Ok RetAssignment, a2) => (Ok RetAssignment, a2)
         | (Ok RetNone, a2) => (Err TypeError, a2)
         | (Err e, a2) => (Err e, a2)
         end.
Proof.
  intros Hvar Hpre Hc. induction Hpre as [|p pre Hp _ IH]; simpl.
  - rewrite Hc.
    destruct (backtrack cw d (setitem a var value)) as [[[|]|e] a2] eqn:Hb;
      simpl; [done | | done].
    apply backtrack_sound in Hb as [_ Hcons]. by rewrite (Hcons Hc).
  - rewrite Hp. by rewrite pop_setitem_fresh.
Qed.

(** The ways the loop can end: with [None] after values that are all
    inconsistent, or at the first value that is not inconsistent. *)
Lemma backtrack_loop_cases d var vals a res a' :
  var ∉ keys a →
  backtrack_loop cw (λ a1, Some (backtrack cw d a1)) d var vals a
  = Some (res, a') →
  (res = Ok RetNone ∧ a' = a ∧
   Forall (λ p, consistent cw d (setitem a var p) = Ok false) vals) ∨
  ∃ pre value post,
    vals = pre ++ value :: post ∧
    Forall (λ p, consistent cw d (setitem a var p) = Ok false) pre ∧
    ((∃ e, consistent cw d (setitem a var value) = Err e ∧
           res = Err e ∧ a' = setitem a var value) ∨
     (consistent cw d (setitem a var value) = Ok true ∧
      ∃ r2, backtrack cw d (setitem a var value) = (r2, a') ∧
            res = match r2 with
                  | Ok RetAssignment => Ok RetAssignment
                  | Ok RetNone => Err TypeError
                  | Err e => Err e
                  end)).
Proof.
  intros Hvar. induction vals as [|value vals IH]; simpl.
  - intros [= <- <-]. left. by split_and!.
  - destruct (consistent cw d (setitem a var value)) as [[]|e] eqn:Hc.
    + intros H. right. exists [], value, vals. split_and!; [done | done |].
      right. split; [done |].
      destruct (backtrack cw d (setitem a var value)) as [[[|]|e] a2] eqn:Hb;
        simpl in H.
      * injection H as <- <-. by exists (Ok RetNone).
      * apply backtrack_sound in Hb as Hpost. destruct Hpost as [_ Hcons].
        rewrite (Hcons Hc) in H. injection H as <- <-.
        by exists (Ok RetAssignment).
      * injection H as <- <-. by exists (Err e).
    + rewrite pop_setitem_fresh by done. intros H.
      destruct (IH H) as [(-> & -> & Hall)|(pre & v & post & -> & Hpre & Hv)].
      * left. split_and!; [done | done | by constructor].
      * right. exists (value :: pre), v, post.
        split_and!; [done | by constructor | done].
    + intros [= <- <-]. right. exists [], value, vals.
      split_and!; [done | done |]. left. by exists e.
Qed.

(** *** Induction on the calls of [backtrack] *)

Lemma backtrack_complete d a :
  assignment_complete d a = true → backtrack cw d a = (Ok RetAssignment, a).
Proof.
  intros Hcomp. pose proof (backtrack_unfold cw d a) as Hu. simpl in Hu.
  rewrite Hcomp in Hu. congruence.
Qed.

Lemma backtrack_order_error d a var e :
  assignment_complete d a = false →
  select_unassigned_variable cw d a = Ok (Some var) →
  order_domain_values cw d var a = Err e →
  backtrack cw d a = (Err e, a).
Proof.
  intros Hcomp Hsel Hord. pose proof (backtrack_unfold cw d a) as Hu.
  simpl in Hu. rewrite Hcomp, Hsel, Hord in Hu. congruence.
Qed.

Lemma backtrack_ind (P : assignment → result retval → assignment → Prop)
    (d : domains) :
  (∀ a, assignment_complete d a = true → P a (Ok RetAssignment) a) →
  (∀ a var e, var ∈ keys d → var ∉ keys a →
     select_unassigned_variable cw d a = Ok (Some var) →
     order_domain_values cw d var a = Err e → P a (Err e) a) →
  (∀ a var vals, var ∈ keys d → var ∉ keys a →
     assignment_complete d a = false →
     select_unassigned_variable cw d a = Ok (Some var) →
     order_domain_values cw d var a = Ok vals →
     Forall (λ p, consistent cw d (setitem a var p) = Ok false) vals →
     P a (Ok RetNone) a) →
  (∀ a var pre value post e, var ∈ keys d → var ∉ keys a →
     select_unassigned_variable cw d a = Ok (Some var) →
     order_domain_values cw d var a = Ok (pre ++ value :: post) →
     Forall (λ p, consistent cw d (setitem a var p) = Ok false) pre →
     consistent cw d (setitem a var value) = Err e →
     P a (Err e) (setitem a var value)) →
  (∀ a var pre value post r2 a', var ∈ keys d → var ∉ keys a →
     select_unassigned_variable cw d a = Ok (Some var) →
     order_domain_values cw d var a = Ok (pre ++ value :: post) →
     Forall (λ p, consistent cw d (setitem a var p) = Ok false) pre →
     consistent cw d (setitem a var value) = Ok true →
     backtrack cw d (setitem a var value) = (r2, a') →
     P (setitem a var value) r2 a' →
     P a (backtrack_outcome_of r2) a') →
  ∀ a, P a (backtrack cw d a).1 (backtrack cw d a).2.
Proof.
  intros Hcomplete Horder Hnone Herr Hrec a.
  remember (length (unassigned d a)) as n eqn:Hn. revert a Hn.
  induction n as [n IH] using lt_wf_ind. intros a ->.
  destruct (assignment_complete d a) eqn:Hcomp.
  { rewrite (backtrack_complete _ _ Hcomp). by apply Hcomplete. }
  destruct (select_unassigned_variable_cases cw d a) as (r & Hsel & Hr & Hvar).
  destruct r as [var|]; [| destruct Hr as [Hr _]; rewrite Hr in Hcomp; done].
  destruct (Hvar var eq_refl) as (Hd & Ha & _).
  destruct (order_domain_values cw d var a) as [vals|e] eqn:Hord.
  2:{ rewrite (backtrack_order_error _ _ _ _ Hcomp Hsel Hord). by eapply Horder. }
  pose proof (backtrack_step _ _ _ _ Hcomp Hsel Hord) as Hstep.
  destruct (backtrack cw d a) as [res a'].
  apply backtrack_loop_cases in Hstep
    as [(-> & -> & Hall)|(pre & value & post & -> & Hpre & Hcase)]; [| | done].
  - by eapply Hnone.
  - destruct Hcase as [(e & Hc & -> & ->)|(Hc & r2 & Hb & ->)].
    + by eapply Herr.
    + simpl. eapply Hrec; try done.
      assert (Hlt : (length (unassigned d (setitem a var value))
                     < length (unassigned d a))%nat).
      { apply unassigned_setitem. by apply elem_of_unassigned. }
      specialize (IH _ Hlt (setitem a var value) eq_refl).
      by rewrite Hb in IH.
Qed.

(** X14.  [backtrack] commits to the first value of the selected slot
    that is consistent with the assignment: what the recursive call on
    that value gives decides the outcome, and no later value is tried.
    An assignment it returns is returned, an exception it raises goes
    on, and when it returns [None] the caller raises [TypeError]. *)
Theorem backtrack_commits_to_first_consistent_value (d : domains)
    (a : assignment) (var : Var) (pre post : list string) (value : string) :
  assignment_complete d a = false →
  select_unassigned_variable cw d a = Ok (Some var) →
  order_domain_values cw d var a = Ok (pre ++ value :: post) →
  Forall (λ p, consistent cw d (setitem a var p) = Ok false) pre →
  consistent cw d (setitem a var value) = Ok true →
  backtrack cw d a
  = match backtrack cw d (setitem a var value) with
    | (Ok RetAssignment, a2) => (Ok RetAssignment, a2)
    | (Ok RetNone, a2) => (Err TypeError, a2)
    | (Err e, a2) => (Err e, a2)
    end.
Proof.
  intros Hcomp Hsel Hord Hpre Hc.
  pose proof (backtrack_step _ _ _ _ Hcomp Hsel Hord) as Hstep.
  rewrite backtrack_loop_commits in Hstep; [congruence | | done | done].
  apply select_unassigned_variable_elem_of, elem_of_unassigned in Hsel.
  by destruct Hsel.
Qed.

(** X15.  [backtrack] returns [None] exactly when the assignment is not
    complete and no value of the selected slot, added to the assignment
    as it stands, passes [consistent]. *)
Theorem backtrack_None_iff (d : domains) (a a' : assignment) :
  backtrack cw d a = (Ok RetNone, a') ↔
  a' = a ∧ assignment_complete d a = false ∧
  ∃ var vals,
    select_unassigned_variable cw d a = Ok (Some var) ∧
    order_domain_values cw d var a = Ok vals ∧
    Forall (λ p, consistent cw d (setitem a var p) = Ok false) vals.
Proof.
  split.
  - intros Hb.
    pose proof (backtrack_ind
      (λ a0 r a1, r = Ok RetNone →
         a1 = a0 ∧ assignment_complete d a0 = false ∧
         ∃ var vals,
           select_unassigned_variable cw d a0 = Ok (Some var) ∧
           order_domain_values cw d var a0 = Ok vals ∧
           Forall (λ p, consistent cw d (setitem a0 var p) = Ok false) vals)
      d) as Hind.
    rewrite <- (f_equal snd Hb : (backtrack cw d a).2 = a').
    apply Hind; [done | done | | done | | by rewrite Hb].
    + intros a0 var vals _ _ Hcomp Hsel Hord Hall _. split_and!; eauto.
    + intros a0 var pre value post r2 a1 _ _ _ _ _ _ _ _.
      by destruct r2 as [[]|].
  - intros (-> & Hcomp & var & vals & Hsel & Hord & Hall).
    pose proof (backtrack_step _ _ _ _ Hcomp Hsel Hord) as Hstep.
    assert (Hvar : var ∉ keys a).
    { apply select_unassigned_variable_elem_of, elem_of_unassigned in Hsel.
      by destruct Hsel. }
    assert (Hloop : backtrack_loop cw (λ a1, Some (backtrack cw d a1)) d var
                      vals a = Some (Ok RetNone, a)); [| congruence].
    clear Hord Hstep. induction Hall as [|p vals Hp _ IH]; simpl; [done |].
    rewrite Hp. by rewrite pop_setitem_fresh.
Qed.

Lemma backtrack_adds_entries (d : domains) (a a' : assignment) :
  backtrack cw d a = (Ok RetAssignment, a') →
  ∃ new, a' = a ++ new ∧
    (∀ v w, (v, w) ∈ new → v ∈ keys d ∧ ∃ s, get d v = Some s ∧ w ∈ s) ∧
    (NoDup (keys a) → NoDup (keys a')).
Proof.
  intros Hb.
  pose proof (backtrack_ind
    (λ a0 r a1, r = Ok RetAssignment →
       ∃ new, a1 = a0 ++ new ∧
         (∀ v w, (v, w) ∈ new → v ∈ keys d ∧ ∃ s, get d v = Some s ∧ w ∈ s) ∧
         (NoDup (keys a0) → NoDup (keys a1)))
    d) as Hind.
  rewrite <- (f_equal snd Hb : (backtrack cw d a).2 = a').
  apply Hind; [| done | done | done | | by rewrite Hb].
  - intros a0 _ _. exists []. rewrite app_nil_r. split_and!; [done | | done].
    by intros v w ?%elem_of_nil.
  - intros a0 var pre value post r2 a1 Hd Ha _ Hord _ _ _ IH Hr2.
    destruct r2 as [[]|]; try done.
    destruct (IH eq_refl) as (new & -> & Hnew & Hnd).
    rewrite (setitem_fresh _ _ _ Ha) in *.
    exists ((var, value) :: new). split_and!.
    + by rewrite <- app_assoc.
    + intros v w [[= -> ->]|?]%elem_of_cons; [| by apply Hnew].
      split; [done |].
      apply order_domain_values_spec in Hord as (dv & Hdv & Hperm & _).
      exists dv. split; [done |]. apply elem_of_elements. rewrite <- Hperm.
      apply elem_of_app. right. left.
    + intros Hnda. apply Hnd. unfold keys in *. rewrite fmap_app. simpl.
      apply NoDup_app. split_and!; [done | | apply NoDup_singleton].
      intros x Hx ->%list_elem_of_singleton. done.
Qed.

(** X16.  An assignment that [backtrack] returns is the assignment it
    was given with entries added behind it: the entries it was given
    are untouched, every added entry gives a slot of the domains a word
    of its domain, and no slot is entered twice. *)
Theorem backtrack_extends (d : domains) (a a' : assignment) :
  backtrack cw d a = (Ok RetAssignment, a') →
  ∃ new, a' = a ++ new ∧
    (∀ v w, (v, w) ∈ new → v ∈ keys d ∧ ∃ s, get d v = Some s ∧ w ∈ s) ∧
    (NoDup (keys a) → NoDup (keys a')).
Proof. apply backtrack_adds_entries. Qed.

(** *** The exceptions of the search *)

Lemma sort_count_Ok word i j vals num :
  (∃ ch, str_getitem word i = Ok ch) →
  (∀ v, v ∈ vals → ∃ ch, str_getitem v j = Ok ch) →
  ∃ n, sort_count word i j vals num = Ok n.
Proof.
  intros [ch Hch] Hvals. revert num.
  induction vals as [|v vals IH]; intros num; simpl; [eauto |].
  destruct (Hvals v) as [ch' Hch']; [left |].
  unfold chars_equal. rewrite Hch, Hch'. simpl. apply IH.
  intros v' ?. apply Hvals. by right.
Qed.

Lemma sort_loop_Ok d word var dv matches num :
  graph_wf cw d → node_consistent d →
  var ∈ keys d → get d var = Some dv → word ∈ dv →
  (∀ m, m ∈ matches → m ∈ neighbors cw var) →
  ∃ n, sort_loop cw d word var matches num = Ok n.
Proof.
  intros Hwf Hnc Hvar Hdv Hword. revert num.
  induction matches as [|m matches IH]; intros num Hm; simpl; [eauto |].
  destruct (Hwf var m) as (Hmk & _ & i & j & Ho & Hi & Hj);
    [done | apply Hm; left |].
  apply get_is_Some in Hmk as [dm Hdm].
  unfold overlaps_getitem, getitem. rewrite Ho, Hdm. simpl.
  destruct (sort_count_Ok word i j (elements dm) num) as [n ->].
  - apply str_getitem_in_range. by rewrite (Hnc var dv word).
  - intros v Hv%elem_of_elements. apply str_getitem_in_range.
    by rewrite (Hnc m dm v).
  - simpl. apply IH. intros m' ?. apply Hm. by right.
Qed.

Lemma sort_keys_Ok d var dv ordered :
  graph_wf cw d → node_consistent d →
  var ∈ keys d → get d var = Some dv → (∀ w, w ∈ ordered → w ∈ dv) →
  ∃ keyed, sort_keys cw d var ordered = Ok keyed.
Proof.
  intros Hwf Hnc Hvar Hdv. induction ordered as [|x ordered IH]; intros Hin;
    simpl; [eauto |].
  destruct (sort_loop_Ok d x var dv (elements (neighbors cw var)) 0)
    as [k Hk]; try done.
  { apply Hin. left. }
  { intros m. apply elem_of_elements. }
  unfold sort. rewrite Hk. simpl.
  destruct IH as [rest ->]; [intros; apply Hin; by right |]. simpl. eauto.
Qed.

Lemma order_domain_values_Ok d var a :
  graph_wf cw d → node_consistent d → var ∈ keys d →
  ∃ vals, order_domain_values cw d var a = Ok vals.
Proof.
  intros Hwf Hnc Hvar. pose proof Hvar as [dv Hdv]%get_is_Some.
  unfold order_domain_values, getitem. rewrite Hdv. simpl.
  destruct (sort_keys_Ok d var dv (elements dv)) as [keyed ->]; try done.
  - intros w. apply elem_of_elements.
  - simpl. eauto.
Qed.

Lemma within_domains_setitem d a var value dv :
  within_domains d a → get d var = Some dv → value ∈ dv →
  within_domains d (setitem a var value).
Proof.
  intros Hin Hdv Hv v w. destruct (decide (var = v)) as [<-|Hne].
  - rewrite get_setitem_eq. intros [= <-]. eauto.
  - rewrite get_setitem_ne by done. apply Hin.
Qed.

Lemma consistent_within_Ok d a :
  graph_wf cw d → node_consistent d → within_domains d a →
  ∃ b, consistent cw d a = Ok b.
Proof.
  intros Hwf Hnc Hin. apply consistent_returns.
  - intros x y Hx Hy.
    apply get_is_Some in Hx as [w Hw].
    destruct (Hin _ _ Hw) as (s & Hs & _).
    destruct (Hwf x y) as (Hyk & _ & i & j & Ho & Hi & Hj);
      [apply get_is_Some; eauto | done |].
    split; [by right |]. intros _. by exists i, j.
  - intros v u Hu. destruct (Hin _ _ Hu) as (s & Hs & Hus).
    symmetry. by apply (Hnc v s).
Qed.

Lemma backtrack_raises_only_TypeError d a e a' :
  graph_wf cw d → node_consistent d → within_domains d a →
  backtrack cw d a = (Err e, a') → e = TypeError.
Proof.
  intros Hwf Hnc Hin Hb.
  pose proof (backtrack_ind
    (λ a0 r a1, within_domains d a0 → ∀ e, r = Err e → e = TypeError) d)
    as Hind.
  eapply (Hind _ _ _ _ _ a Hin); by rewrite Hb.
  Unshelve.
  - done.
  - intros a0 var e0 Hd _ _ Hord _.
    destruct (order_domain_values_Ok d var a0) as [vals Hvals]; try done.
    congruence.
  - done.
  - intros a0 var pre value post e0 Hd Ha _ Hord _ Hc Hin0.
    apply order_domain_values_spec in Hord as (dv & Hdv & Hperm & _).
    destruct (consistent_within_Ok d (setitem a0 var value)) as [b Hb'];
      try done; [| congruence].
    eapply within_domains_setitem; [done | done |].
    apply elem_of_elements. rewrite <- Hperm. apply elem_of_app. right. left.
  - intros a0 var pre value post r2 a1 Hd Ha _ Hord _ Hc _ IH Hin0 e0.
    destruct r2 as [[]|e2]; simpl; [by intros [= <-] | done |].
    intros [= <-]. apply IH; [| done].
    apply order_domain_values_spec in Hord as (dv & Hdv & Hperm & _).
    eapply within_domains_setitem; [done | done |].
    apply elem_of_elements. rewrite <- Hperm. apply elem_of_app. right. left.
Qed.

End Search.

(** ** [__init__] and [solve] *)

Section Solve.
Context (cw : Crossword).
Import PyDict PyDictFacts.

Lemma get_elem_of {V} (d : list (Var * V)) k v : get d k = Some v → (k, v) ∈ d.
Proof.
  induction d as [|[k' v'] d IH]; simpl; [done |].
  case_decide as Hk.
  - intros Hv. injection Hv as Hv. subst. left.
  - intros Hv. right. by apply IH.
Qed.

Lemma NoDup_keys_setitem {V} (d : list (Var * V)) k v :
  NoDup (keys d) → NoDup (keys (setitem d k v)).
Proof.
  intros Hnd. destruct (decide (k ∈ keys d)) as [Hk|Hk].
  - by rewrite keys_setitem_in.
  - rewrite setitem_fresh by done. unfold keys in *. rewrite fmap_app. simpl.
    apply NoDup_app. split_and!; [done | | apply NoDup_singleton].
    by intros x Hx ->%list_elem_of_singleton.
Qed.

Lemma init_domains_loop_spec vs (d0 : domains) :
  let d := foldl (λ d var, setitem d var (words cw)) d0 vs in
  (NoDup (keys d0) → NoDup (keys d)) ∧
  (∀ v, v ∈ keys d ↔ v ∈ keys d0 ∨ v ∈ vs) ∧
  (∀ v, v ∈ vs → get d v = Some (words cw)) ∧
  (∀ v, v ∉ vs → get d v = get d0 v).
Proof.
  revert d0. induction vs as [|u vs IH]; intros d0; simpl.
  - split_and!; [done | | by intros v ?%elem_of_nil | done].
    intros v. rewrite elem_of_nil. naive_solver.
  - destruct (IH (setitem d0 u (words cw))) as (Hnd & Hk & Hin & Hout).
    split_and!.
    + intros ?. by apply Hnd, NoDup_keys_setitem.
    + intros v. rewrite Hk, elem_of_keys_setitem, elem_of_cons. naive_solver.
    + intros v Hv. destruct (decide (v ∈ vs)) as [|Hn]; [by apply Hin |].
      apply elem_of_cons in Hv as [->|?]; [| done].
      rewrite (Hout _ Hn). apply get_setitem_eq.
    + intros v [Hne Hn]%not_elem_of_cons.
      rewrite (Hout _ Hn). by apply get_setitem_ne.
Qed.

(** X17.  [__init__] gives every slot of the crossword one entry in the
    domains, with the whole pool of words as its domain, and no entry
    to anything else. *)
Theorem init_domains_spec :
  NoDup (keys (init_domains cw)) ∧
  (∀ v, v ∈ keys (init_domains cw) ↔ v ∈ variables cw) ∧
  (∀ v, v ∈ variables cw → get (init_domains cw) v = Some (words cw)).
Proof.
  destruct (init_domains_loop_spec (variables cw) []) as (Hnd & Hk & Hin & _).
  split_and!; [apply Hnd; constructor | | done].
  intros v. rewrite (Hk v). simpl. rewrite elem_of_nil. naive_solver.
Qed.

Lemma ac3_Ok_check arcs d b d' :
  ac3 cw arcs d = (Ok b, d') → ac3_check d' (keys d') = Ok b.
Proof.
  intros Hac3. pose proof (ac3_unfold cw arcs d) as Hloop.
  rewrite Hac3 in Hloop.
  apply (ac3_loop_invariant cw (λ _ _, True)) in Hloop
    as (arcs' & _ & Hend); [| done | done].
  by destruct Hend as [[? _]|(? & ? & ? & ? & _ & [=] & _)].
Qed.

(** The domains [solve] hands to [backtrack]. *)
Lemma solve_domains_cases :
  ∃ d1, enforce_node_consistency (init_domains cw) = Ok d1 ∧
    node_consistent d1 ∧ keys d1 = keys (init_domains cw) ∧
    domains_subseteq (ac3 cw None d1).2 (init_domains cw) ∧
    node_consistent (ac3 cw None d1).2.
Proof.
  destruct (enforce_node_consistency_loop_Ok (keys (init_domains cw))
              (init_domains cw)) as [d1 Hd1]; [done |].
  exists d1.
  pose proof (enforce_node_consistency_node_consistent _ _ Hd1) as Hnc.
  pose proof (enforce_node_consistency_loop_subseteq _ _ _ Hd1) as Hsub1.
  pose proof (ac3_subseteq cw None d1) as Hsub2.
  split_and!; [done | done | apply Hsub1 | |].
  - by eapply domains_subseteq_trans.
  - by eapply node_consistent_subseteq.
Qed.

Lemma consistent_single d var value :
  neighbors_other_slots cw (keys d) → var ∈ keys d →
  var_length var = Z.of_nat (String.length value) →
  consistent cw d [(var, value)] = Ok true.
Proof.
  intros Hother Hvar Hlen. unfold consistent. simpl.
  unfold getitem. simpl. rewrite decide_True by done. simpl.
  rewrite decide_False by (intros []; done).
  rewrite decide_False by (intros [? H]; rewrite lookup_empty in H; done).
  assert (Hlayers :
    filter (λ x, x ∉ filter (λ x0, x0 ∉ [var]) (keys d))
           (elements (neighbors cw var)) = []).
  { destruct (filter _ (elements (neighbors cw var))) as [|y l] eqn:Hf;
      [done |].
    assert (Hin : y ∈ y :: l) by left. rewrite <- Hf in Hin.
    apply list_elem_of_filter in Hin as [Hn Hy%elem_of_elements].
    unfold neighbors_other_slots in Hother. rewrite Forall_forall in Hother.
    destruct (Hother var Hvar y Hy) as [Hyk Hne].
    destruct Hn. apply list_elem_of_filter. split; [| done].
    simpl. by intros ->%list_elem_of_singleton. }
  by rewrite Hlayers.
Qed.

Lemma solve_unfold d1 :
  enforce_node_consistency (init_domains cw) = Ok d1 →
  solve cw = match ac3 cw None d1 with
             | (Err e, _) => Err e
             | (Ok _, d2) =>
                 match backtrack cw d2 [] with
                 | (Err e, _) => Err e
                 | (Ok RetNone, _) => Ok None
                 | (Ok RetAssignment, a) => Ok (Some a)
                 end
             end.
Proof. intros Hd1. unfold solve. by rewrite Hd1. Qed.

Lemma keys_init_domains_iff v :
  v ∈ keys (init_domains cw) ↔ v ∈ variables cw.
Proof.
  destruct (init_domains_loop_spec (variables cw) []) as (_ & Hk & _).
  rewrite (Hk v). simpl. rewrite elem_of_nil. naive_solver.
Qed.

Lemma solve_error_cases (e : exn) :
  graph_wf cw (init_domains cw) →
  solve cw = Err e → e = TypeError.
Proof.
  intros Hwf. destruct solve_domains_cases as (d1 & Hd1 & Hnc1 & Hk1 & Hsub & Hnc2).
  rewrite (solve_unfold _ Hd1).
  destruct (ac3_returns cw d1) as (b & d2 & Hac3);
    [by eapply graph_wf_keys | done |].
  rewrite Hac3 in *. simpl in *.
  destruct (backtrack cw d2 []) as [[[]|e'] a'] eqn:Hb; [done | done |].
  intros [= <-]. eapply backtrack_raises_only_TypeError; [| done | | done].
  - eapply graph_wf_keys; [apply Hsub | done].
  - by intros v w.
Qed.

Lemma solve_None_cases :
  neighbors_other_slots cw (variables cw) →
  solve cw = Ok None ↔
  ∃ d1 d2, enforce_node_consistency (init_domains cw) = Ok d1 ∧
           ac3 cw None d1 = (Ok false, d2).
Proof.
  intros Hother.
  destruct solve_domains_cases as (d1 & Hd1 & Hnc1 & Hk1 & Hsub & Hnc2).
  rewrite (solve_unfold _ Hd1).
  destruct (ac3 cw None d1) as [[b|e] d2] eqn:Hac3; simpl in *.
  2:{ split; [done |]. intros (d1' & d2' & Hd1' & Hac3').
      assert (d1' = d1) as -> by congruence. congruence. }
  pose proof (ac3_Ok_check _ _ _ _ Hac3) as Hcheck.
  apply ac3_check_spec in Hcheck.
  assert (Hother2 : neighbors_other_slots cw (keys d2)).
  { unfold neighbors_other_slots in *. rewrite Forall_forall in *.
    intros x Hx y Hy. rewrite (proj1 Hsub) in Hx |- *.
    rewrite keys_init_domains_iff in Hx |- *. by apply Hother. }
  split.
  - intros Hsolve.
    destruct (backtrack cw d2 []) as [[[]|e'] a'] eqn:Hb; try done.
    pose proof (backtrack_ind cw
      (λ a0 r a1, a0 = [] → r = Ok RetNone →
                  ∃ v s, v ∈ keys d2 ∧ get d2 v = Some s ∧ size s = 0%nat)
      d2) as Hind.
    destruct Hind with (a := @nil (Var * string)) as (v & s & Hv & Hs & Hz);
      [done | done | | done | | done | by rewrite Hb | ].
    + intros a0 var vals Hd _ _ _ Hord Hall -> _.
      apply order_domain_values_spec in Hord as (dv & Hdv & Hperm & _).
      exists var, dv. split_and!; [done | done |].
      destruct vals as [|value vals].
      * unfold size, set_size. simpl. by rewrite <- Hperm.
      * apply Forall_cons in Hall as [Hc _]. simpl in Hc.
        assert (Ht : consistent cw d2 [(var, value)] = Ok true);
          [| congruence].
        apply consistent_single; [done | done |].
        symmetry. apply (Hnc2 var dv); [done |]. apply elem_of_elements.
        rewrite <- Hperm. left.
    + intros a0 var pre value post r2 a1 _ _ _ _ _ _ _ _ _.
      by destruct r2 as [[]|].
    + exists d1, d2. split; [done |].
      assert (b = false) as ->; [| done]. apply Hcheck. eauto.
  - intros (d1' & d2' & Hd1' & Hac3').
    assert (d1' = d1) as -> by congruence.
    assert (b = false ∧ d2' = d2) as [-> ->] by (split; congruence).
    destruct (proj1 Hcheck eq_refl) as (v & s & Hv & Hs & Hz).
    assert (Hcomp : assignment_complete d2 [] = false).
    { apply not_true_is_false. intros Hc.
      apply (proj1 (assignment_complete_true d2 [])) with (v := v) in Hc;
        [| done]. by apply elem_of_nil in Hc. }
    destruct (select_unassigned_variable_cases cw d2 [])
      as (r & Hsel & Hr & Hvar).
    destruct r as [var|];
      [| destruct Hr as [Hr _]; rewrite Hr in Hcomp; done].
    destruct (Hvar var eq_refl) as (Hd & _ & svar & Hsvar & Hmin).
    assert (Hzero : size svar = 0%nat).
    { specialize (Hmin v s Hv). assert (size svar ≤ size s)%nat; [| lia].
      apply Hmin; [by intros ?%elem_of_nil | done]. }
    assert (Hord : order_domain_values cw d2 var [] = Ok []).
    { unfold order_domain_values, getitem. rewrite Hsvar. simpl.
      apply size_empty_inv in Hzero. apply leibniz_equiv in Hzero.
      rewrite Hzero, elements_empty. done. }
    pose proof (backtrack_step cw _ _ _ _ Hcomp Hsel Hord) as Hstep.
    simpl in Hstep. injection Hstep as <-. done.
Qed.

Lemma solve_Some_cases (a : assignment) :
  solve cw = Ok (Some a) →
  NoDup (keys a) ∧
  (∀ v, v ∈ keys a ↔ v ∈ variables cw) ∧
  (∀ v w, get a v = Some w → w ∈ words cw).
Proof.
  destruct solve_domains_cases as (d1 & Hd1 & Hnc1 & Hk1 & Hsub & Hnc2).
  rewrite (solve_unfold _ Hd1).
  destruct (ac3 cw None d1) as [[b|e] d2] eqn:Hac3; simpl in *; [| done].
  destruct (backtrack cw d2 []) as [[[]|e'] a'] eqn:Hb; try done.
  intros [= ->].
  pose proof (backtrack_sound cw _ _ _ _ Hb) as [Hcomp _].
  destruct (backtrack_adds_entries cw _ _ _ Hb) as (new & -> & Hnew & Hnd).
  simpl in *.
  assert (Hin : ∀ v w, (v, w) ∈ new → v ∈ variables cw ∧ w ∈ words cw).
  { intros v w Hvw. destruct (Hnew v w Hvw) as (Hv & s & Hs & Hw).
    rewrite (proj1 Hsub), keys_init_domains_iff in Hv. split; [done |].
    destruct (proj2 Hsub _ _ Hs) as (s0 & Hs0 & Hss).
    destruct (init_domains_loop_spec (variables cw) []) as (_ & _ & Hget & _).
    fold (init_domains cw) in Hget. rewrite (Hget v Hv) in Hs0. injection Hs0 as <-. set_solver. }
  split_and!.
  - apply Hnd. constructor.
  - intros v. split.
    + intros [w Hw%get_elem_of]%get_is_Some. by destruct (Hin v w).
    + intros Hv. apply (proj1 (assignment_complete_true d2 new) Hcomp).
      by rewrite (proj1 Hsub), keys_init_domains_iff.
  - intros v w Hw%get_elem_of. by destruct (Hin v w).
Qed.

(** X18.  On a crossword whose graph is well formed, the only exception
    [solve] raises is the [TypeError] of a failed recursive call: it
    raises no [KeyError] and no [IndexError], and the recursion ends. *)
Theorem solve_raises_only_TypeError (e : exn) :
  graph_wf cw (init_domains cw) →
  solve cw = Err e → e = TypeError.
Proof. apply solve_error_cases. Qed.

(** X19.  On a crossword in which the neighbors of slots are other slots,
    [solve] returns [None] exactly when [ac3] returned [False], that is
    when pruning emptied a domain; a failure the search meets later does
    not come out as [None]. *)
Theorem solve_None_iff_ac3_False :
  neighbors_other_slots cw (variables cw) →
  solve cw = Ok None ↔
  ∃ d1 d2, enforce_node_consistency (init_domains cw) = Ok d1 ∧
           ac3 cw None d1 = (Ok false, d2).
Proof. apply solve_None_cases. Qed.

(** X24.  On a crossword with a well-formed graph that has no solution
    in words of the pool, when [ac3] has returned [True] (no domain is
    empty), [solve] raises [TypeError]: it returns neither [None] nor an
    assignment. *)
Theorem solve_raises_when_search_fails (d1 d2 : domains) :
  graph_wf cw (init_domains cw) →
  neighbors_other_slots cw (variables cw) →
  enforce_node_consistency (init_domains cw) = Ok d1 →
  ac3 cw None d1 = (Ok true, d2) →
  (∀ a, (∀ v, v ∈ variables cw → is_Some (get a v)) →
        (∀ v w, get a v = Some w → w ∈ words cw) →
        ¬ satisfies cw a) →
  solve cw = Err TypeError.
Proof.
  intros Hwf Hother Hd1 Hac3 Hnone.
  destruct (solve cw) as [[a|]|e] eqn:Hsolve.
  - exfalso. destruct (solve_Some_cases a Hsolve) as (_ & Hkeys & Hpool).
    apply (Hnone a); [| done |].
    + intros v Hv. by apply get_is_Some, Hkeys.
    + rewrite (solve_unfold _ Hd1), Hac3 in Hsolve.
      destruct (backtrack cw d2 []) as [[[]|e'] a'] eqn:Hb; try done.
      injection Hsolve as ->.
      pose proof (backtrack_sound cw _ _ _ _ Hb) as [_ Hcons].
      eapply consistent_sound. by apply Hcons.
  - exfalso. apply solve_None_cases in Hsolve as (d1' & d2' & Hd1' & Hac3');
      [| done].
    assert (d1' = d1) as -> by congruence. congruence.
  - f_equal. by apply solve_error_cases.
Qed.

(** X20.  An assignment that [solve] returns has one entry for every
    slot of the crossword and no other entry, and every word in it is a
    word of the pool. *)
Theorem solve_assigns_pool_words (a : assignment) :
  solve cw = Ok (Some a) →
  NoDup (keys a) ∧
  (∀ v, v ∈ keys a ↔ v ∈ variables cw) ∧
  (∀ v w, get a v = Some w → w ∈ words cw).
Proof. apply solve_Some_cases. Qed.

End Solve.

(** ** [letter_grid] *)

Section LetterGrid.

Lemma list_getitem_in_range {A} (l : list A) (k : Z) :
  0 ≤ k < Z.of_nat (length l) →
  ∃ x, l !! Z.to_nat k = Some x ∧ list_getitem l k = Ok x.
Proof.
  intros Hk. unfold list_getitem. cbv zeta.
  assert (Hlt : (k <? 0) = false) by lia.
  assert (Hle : (Z.of_nat (length l) <=? k) = false) by lia.
  rewrite !Hlt, Hle. simpl.
  destruct (lookup_lt_is_Some_2 l (Z.to_nat k)) as [x Hx]; [lia |].
  rewrite Hx. eauto.
Qed.

Lemma list_setitem_in_range {A} (l : list A) (k : Z) (x : A) :
  0 ≤ k < Z.of_nat (length l) →
  list_setitem l k x = Ok (<[Z.to_nat k := x]> l).
Proof.
  intros Hk. unfold list_setitem. cbv zeta.
  assert (Hlt : (k <? 0) = false) by lia.
  assert (Hle : (Z.of_nat (length l) <=? k) = false) by lia.
  by rewrite !Hlt, Hle.
Qed.

Lemma list_getitem_out_of_range {A} (l : list A) (k : Z) :
  out_of_range (Z.of_nat (length l)) k → list_getitem l k = Err IndexError.
Proof.
  intros [Hk|Hk]; unfold list_getitem; cbv zeta.
  - assert (Hlt : (k <? 0) = true) by lia. rewrite Hlt.
    assert (Hlt' : (k + Z.of_nat (length l) <? 0) = true) by lia.
    by rewrite Hlt'.
  - assert (Hlt : (k <? 0) = false) by lia. rewrite Hlt.
    assert (Hle : (Z.of_nat (length l) <=? k) = true) by lia.
    rewrite Hle. by rewrite orb_true_r.
Qed.

Lemma list_setitem_out_of_range {A} (l : list A) (k : Z) (x : A) :
  out_of_range (Z.of_nat (length l)) k → list_setitem l k x = Err IndexError.
Proof.
  intros [Hk|Hk]; unfold list_setitem; cbv zeta.
  - assert (Hlt : (k <? 0) = true) by lia. rewrite Hlt.
    assert (Hlt' : (k + Z.of_nat (length l) <? 0) = true) by lia.
    by rewrite Hlt'.
  - assert (Hlt : (k <? 0) = false) by lia. rewrite Hlt.
    assert (Hle : (Z.of_nat (length l) <=? k) = true) by lia.
    rewrite Hle. by rewrite orb_true_r.
Qed.

Lemma list_getitem_error {A} (l : list A) (k : Z) e :
  list_getitem l k = Err e → e = IndexError.
Proof.
  unfold list_getitem. cbv zeta. destruct (_ || _); [congruence |].
  destruct (l !! _); congruence.
Qed.

Lemma list_setitem_error {A} (l : list A) (k : Z) (x : A) e :
  list_setitem l k x = Err e → e = IndexError.
Proof. unfold list_setitem. cbv zeta. destruct (_ || _); congruence. Qed.

(** *** The loops as a list of writes *)

Lemma string_get_list_ascii (s : string) (n : nat) :
  String.get n s = String.list_ascii_of_string s !! n.
Proof.
  revert n. induction s as [|c s IH]; intros n; simpl; [by destruct n |].
  destruct n; [done | apply IH].
Qed.

Lemma length_list_ascii (s : string) :
  length (String.list_ascii_of_string s) = String.length s.
Proof. induction s; simpl; congruence. Qed.

Lemma str_getitem_list_ascii (s : string) (k : nat) ch :
  String.list_ascii_of_string s !! k = Some ch →
  str_getitem s (Z.of_nat k) = Ok ch.
Proof.
  intros Hk. pose proof (lookup_lt_Some _ _ _ Hk) as Hlt.
  rewrite length_list_ascii in Hlt. unfold str_getitem. cbv zeta.
  assert (H1 : (Z.of_nat k <? 0) = false) by lia.
  assert (H2 : (Z.of_nat (String.length s) <=? Z.of_nat k) = false) by lia.
  rewrite !H1, H2. simpl. rewrite Nat2Z.id, string_get_list_ascii, Hk. done.
Qed.

Lemma letter_grid_word_writes variable word (n : nat) chars g :
  drop n (String.list_ascii_of_string word) = chars →
  letter_grid_word variable word (seq n (length chars)) g
  = write_all (imap (λ k ch, (cell_at variable (Z.of_nat (n + k)), ch))
                    chars) g.
Proof.
  revert n g. induction chars as [|ch chars IH]; intros n g Hdrop; simpl;
    [done |].
  assert (Hn : String.list_ascii_of_string word !! n = Some ch).
  { rewrite <- (Nat.add_0_r n), <- lookup_drop, Hdrop. done. }
  rewrite (str_getitem_list_ascii _ _ _ Hn). simpl. rewrite Nat.add_0_r.
  destruct (letter_grid_set g _ _ ch) as [g'|]; simpl; [| done].
  rewrite (IH (S n)).
  - f_equal. apply imap_ext. intros k x _. simpl. do 3 f_equal. lia.
  - rewrite (drop_S _ _ _ Hn) in Hdrop. congruence.
Qed.

Lemma write_all_app ws1 ws2 g :
  write_all (ws1 ++ ws2) g = g' ← write_all ws1 g; write_all ws2 g'.
Proof.
  revert g. induction ws1 as [|[c ch] ws1 IH]; intros g; simpl; [done |].
  destruct (letter_grid_set g c.1 c.2 ch); simpl; [apply IH | done].
Qed.

Lemma letter_grid_loop_writes (a : assignment) g :
  letter_grid_loop a g = write_all (assignment_writes a) g.
Proof.
  revert g. induction a as [|[variable word] a IH]; intros g; simpl; [done |].
  unfold assignment_writes. simpl. rewrite write_all_app.
  rewrite <- length_list_ascii.
  rewrite (letter_grid_word_writes variable word 0
             (String.list_ascii_of_string word)) by done.
  unfold word_writes. simpl.
  destruct (write_all _ g) as [g'|]; simpl; [apply IH | done].
Qed.

(** *** One write *)

Lemma letter_grid_set_error g i j ch e :
  letter_grid_set g i j ch = Err e → e = IndexError.
Proof.
  unfold letter_grid_set.
  destruct (list_getitem g i) as [row|e1] eqn:H1; simpl;
    [| intros [= <-]; by eapply list_getitem_error].
  destruct (list_setitem row j (Some ch)) as [row'|e2] eqn:H2; simpl;
    [| intros [= <-]; by eapply list_setitem_error].
  apply list_setitem_error.
Qed.

Lemma list_setitem_Ok_inv {A} (l : list A) k x l' :
  list_setitem l k x = Ok l' →
  length l' = length l ∧ ∃ n, l' = <[n := x]> l.
Proof.
  unfold list_setitem. cbv zeta. destruct (_ || _); [done |].
  intros [= <-]. rewrite length_insert. eauto.
Qed.

Lemma list_getitem_Ok_inv {A} (l : list A) k x :
  list_getitem l k = Ok x →
  x ∈ l ∧ ¬ out_of_range (Z.of_nat (length l)) k.
Proof.
  intros H. split.
  - unfold list_getitem in H. cbv zeta in H. destruct (_ || _); [done |].
    destruct (l !! _) eqn:Hl; [| done]. injection H as <-.
    by eapply list_elem_of_lookup_2.
  - intros Hout. by rewrite list_getitem_out_of_range in H.
Qed.

Lemma letter_grid_set_shape height width g i j ch g' :
  grid_shape height width g →
  letter_grid_set g i j ch = Ok g' →
  grid_shape height width g' ∧
  ¬ out_of_range height i ∧ ¬ out_of_range width j.
Proof.
  intros [Hlen Hrows] H. unfold letter_grid_set in H.
  inv_bind_as H row Hrow. inv_bind_as H row' Hrow'.
  apply list_getitem_Ok_inv in Hrow as [Hin Hi].
  rewrite Forall_forall in Hrows. pose proof (Hrows row Hin) as Hw.
  assert (Hj : ¬ out_of_range width j).
  { intros Hout. rewrite list_setitem_out_of_range in Hrow'; [done |].
    by rewrite Hw. }
  apply list_setitem_Ok_inv in Hrow' as [Hlen' _].
  apply list_setitem_Ok_inv in H as [Hleng (n & ->)].
  split_and!; [| by rewrite <- Hlen | done].
  split; [by rewrite Hleng |].
  apply Forall_forall. intros r Hr.
  apply list_elem_of_lookup in Hr as [m Hm].
  destruct (decide (n = m)) as [->|Hne].
  - destruct (decide (m < length g)%nat).
    + rewrite list_lookup_insert_eq in Hm by done. injection Hm as <-.
      by rewrite Hlen'.
    + rewrite list_insert_ge in Hm by lia.
      apply Hrows. by eapply list_elem_of_lookup_2.
  - rewrite list_lookup_insert_ne in Hm by done.
    apply Hrows. by eapply list_elem_of_lookup_2.
Qed.

Lemma letter_grid_set_in_grid height width g c ch :
  grid_shape height width g → in_grid height width c →
  ∃ g', letter_grid_set g c.1 c.2 ch = Ok g' ∧
    grid_lookup g' c = Some (Some ch) ∧
    ∀ c', in_grid height width c' → c' ≠ c →
          grid_lookup g' c' = grid_lookup g c'.
Proof.
  intros [Hlen Hrows] [Hi Hj]. destruct c as [i j]. simpl in *.
  destruct (list_getitem_in_range g i) as (row & Hrow & Hget); [lia |].
  assert (Hw : Z.of_nat (length row) = width).
  { rewrite Forall_forall in Hrows. apply Hrows.
    by eapply list_elem_of_lookup_2. }
  unfold letter_grid_set. rewrite Hget. simpl.
  rewrite list_setitem_in_range by lia. simpl.
  rewrite list_setitem_in_range by lia.
  eexists. split; [done |]. split.
  - unfold grid_lookup. simpl.
    rewrite list_lookup_insert_eq by lia. simpl.
    apply list_lookup_insert_eq. lia.
  - intros [i' j'] [Hi' Hj'] Hne. unfold grid_lookup. simpl in *.
    destruct (decide (i' = i)) as [->|Hneq].
    + rewrite list_lookup_insert_eq by lia. rewrite Hrow. simpl.
      apply list_lookup_insert_ne. intros Heq.
      apply Hne. f_equal. lia.
    + rewrite list_lookup_insert_ne by lia. done.
Qed.

(** *** A list of writes *)

Lemma write_all_in_grid height width ws g :
  grid_shape height width g →
  Forall (λ w, in_grid height width w.1) ws →
  ∃ g', write_all ws g = Ok g' ∧ grid_shape height width g' ∧
    ∀ c, in_grid height width c →
      (c ∉ ws.*1 → grid_lookup g' c = grid_lookup g c) ∧
      (writes_agree ws → ∀ ch, (c, ch) ∈ ws →
                              grid_lookup g' c = Some (Some ch)).
Proof.
  intros Hshape Hall. revert g Hshape.
  induction Hall as [|[c0 ch0] ws Hc0 Hall IH]; intros g Hshape; simpl.
  - exists g. split_and!; [done | done |]. intros c _. split; [done |].
    by intros _ ch ?%elem_of_nil.
  - simpl in Hc0.
    destruct (letter_grid_set_in_grid _ _ g c0 ch0 Hshape Hc0)
      as (g1 & Hset & Hsame & Hother).
    rewrite Hset. simpl.
    destruct (letter_grid_set_shape _ _ _ _ _ _ _ Hshape Hset) as [Hshape1 _].
    destruct (IH g1 Hshape1) as (g' & Hg' & Hshape' & Hcontent).
    exists g'. split_and!; [done | done |].
    intros c Hc. destruct (Hcontent c Hc) as [Hout Hin]. split.
    + intros [Hne Hn]%not_elem_of_cons. rewrite (Hout Hn).
      by apply Hother.
    + intros Hagree ch Hch.
      assert (Hagree' : writes_agree ws).
      { unfold writes_agree in *. apply Forall_cons in Hagree as [_ Hagree].
        eapply Forall_impl; [done |]. simpl.
        intros w1 Hw1. by apply Forall_cons in Hw1 as [_ ?]. }
      assert (Hhead : ∀ ch', (c0, ch') ∈ ws → ch' = ch0).
      { intros ch' Hin'. unfold writes_agree in Hagree.
        apply Forall_cons in Hagree as [Hfirst _].
        apply Forall_cons in Hfirst as [_ Hfirst].
        rewrite Forall_forall in Hfirst. symmetry.
        by apply (Hfirst (c0, ch') Hin'). }
      destruct (decide (c ∈ ws.*1)) as [Hcin|Hcout].
      * apply list_elem_of_fmap in Hcin as ([c1 ch1] & -> & Hin1). simpl in *.
        apply elem_of_cons in Hch as [[= -> ->]|Hch].
        -- rewrite (Hhead _ Hin1) in Hin1. by apply Hin.
        -- by apply Hin.
      * rewrite (Hout Hcout).
        apply elem_of_cons in Hch as [[= -> ->]|Hch]; [done |].
        destruct Hcout. apply list_elem_of_fmap. by exists (c, ch).
Qed.

Lemma write_all_out_of_range height width ws g :
  grid_shape height width g →
  Exists (λ w, out_of_range height w.1.1 ∨ out_of_range width w.1.2) ws →
  write_all ws g = Err IndexError.
Proof.
  intros Hshape Hex. revert g Hshape.
  induction ws as [|[c ch] ws IH]; intros g Hshape; simpl.
  - by apply Exists_nil in Hex.
  - destruct (letter_grid_set g c.1 c.2 ch) as [g'|e] eqn:Hset; simpl.
    + destruct (letter_grid_set_shape _ _ _ _ _ _ _ Hshape Hset)
        as (Hshape' & Hi & Hj).
      apply Exists_cons in Hex as [[?|?]|Hex]; [done | done |].
      by apply IH.
    + by rewrite (letter_grid_set_error _ _ _ _ _ Hset).
Qed.

Lemma initial_grid_shape height width :
  0 ≤ height → 0 ≤ width →
  grid_shape height width
    (replicate (Z.to_nat height) (replicate (Z.to_nat width) None)).
Proof.
  intros Hh Hw. split; [rewrite length_replicate; lia |].
  apply Forall_replicate. rewrite length_replicate. lia.
Qed.

Lemma initial_grid_lookup height width c :
  in_grid height width c →
  grid_lookup (replicate (Z.to_nat height) (replicate (Z.to_nat width) None))
    c = Some None.
Proof.
  intros [Hi Hj]. unfold grid_lookup.
  rewrite lookup_replicate_2 by lia. simpl.
  apply lookup_replicate_2. lia.
Qed.

(** X21.  When every letter of the assignment falls inside the grid,
    [letter_grid] raises nothing and returns [height] rows of [width]
    cells, with [None] in every cell where no letter falls. *)
Theorem letter_grid_shape (height width : Z) (a : assignment) :
  0 ≤ height → 0 ≤ width →
  Forall (λ w, in_grid height width w.1) (assignment_writes a) →
  ∃ g, letter_grid height width a = Ok g ∧ grid_shape height width g ∧
    ∀ c, in_grid height width c → c ∉ (assignment_writes a).*1 →
         grid_lookup g c = Some None.
Proof.
  intros Hh Hw Hall. unfold letter_grid. rewrite letter_grid_loop_writes.
  destruct (write_all_in_grid height width (assignment_writes a) _
              (initial_grid_shape _ _ Hh Hw) Hall)
    as (g & Hg & Hshape & Hcontent).
  exists g. split_and!; [done | done |].
  intros c Hc Hout. destruct (Hcontent c Hc) as [Hblank _].
  rewrite (Hblank Hout). by apply initial_grid_lookup.
Qed.

(** X22.  When every letter falls inside the grid and the letters that
    fall in the same cell are the same, the grid [letter_grid] returns
    holds, at the cell of the [k]-th letter of every assigned word, that
    letter. *)
Theorem letter_grid_reads_back (height width : Z) (a : assignment)
    (g : letters_grid) :
  0 ≤ height → 0 ≤ width →
  Forall (λ w, in_grid height width w.1) (assignment_writes a) →
  writes_agree (assignment_writes a) →
  letter_grid height width a = Ok g →
  ∀ variable word (k : nat) ch,
    (variable, word) ∈ a →
    String.get k word = Some ch →
    grid_lookup g (cell_at variable (Z.of_nat k)) = Some (Some ch).
Proof.
  intros Hh Hw Hall Hagree Hg variable word k ch Hin Hk.
  unfold letter_grid in Hg. rewrite letter_grid_loop_writes in Hg.
  destruct (write_all_in_grid height width (assignment_writes a) _
              (initial_grid_shape _ _ Hh Hw) Hall)
    as (g' & Hg' & _ & Hcontent).
  assert (g' = g) as -> by congruence.
  assert (Hwrite : (cell_at variable (Z.of_nat k), ch) ∈ assignment_writes a).
  { unfold assignment_writes. apply list_elem_of_bind.
    exists (variable, word). split; [| done]. simpl. unfold word_writes.
    apply list_elem_of_lookup. exists k. rewrite list_lookup_imap.
    by rewrite <- string_get_list_ascii, Hk. }
  apply Hcontent; [| done | done].
  rewrite Forall_forall in Hall. by apply (Hall _ Hwrite).
Qed.

(** X23.  When some letter of the assignment falls at a row or a column
    that the grid rejects (at or beyond its size, or further before its
    start than its size), [letter_grid] raises [IndexError]. *)
Theorem letter_grid_out_of_range (height width : Z) (a : assignment) :
  0 ≤ height → 0 ≤ width →
  Exists (λ w, out_of_range height w.1.1 ∨ out_of_range width w.1.2)
         (assignment_writes a) →
  letter_grid height width a = Err IndexError.
Proof.
  intros Hh Hw Hex. unfold letter_grid. rewrite letter_grid_loop_writes.
  eapply write_all_out_of_range; [by apply initial_grid_shape | done].
Qed.

End LetterGrid.

(** ** The further properties on the example crosswords *)

Section FurtherExamples.
Import PyDict PyDictFacts.

Lemma graph_wf_assigned cw d (a : assignment) :
  graph_wf cw d → (∀ x, x ∈ keys a → x ∈ keys d) →
  assigned_graph_wf cw d a.
Proof.
  intros Hwf Hsub x y Hx Hy.
  destruct (Hwf x y (Hsub x Hx) Hy) as (Hyk & _ & i & j & Ho & Hi & Hj).
  split; [by right |]. intros _. by exists i, j.
Qed.

Lemma cross_graph_wf (d : domains) :
  keys d = [cross_across; cross_down] → graph_wf cross_crossword d.
Proof.
  intros Hk. apply grid_graph_wf. intros v Hv. by rewrite Hk.
Qed.

Lemma cross_domains_consistent_lengths : node_consistent cross_domains.
Proof.
  eapply enforce_node_consistency_node_consistent.
  apply cross_domains_node_consistent.
Qed.

Lemma cross_ac3 :
  ac3 cross_crossword None cross_domains = (Ok true, cross_pruned).
Proof. by vm_compute. Qed.

Lemma cross_solution_lengths v u :
  get cross_solution v = Some u → var_length v = Z.of_nat (String.length u).
Proof.
  unfold cross_solution. simpl. repeat case_decide; intros [= <-]; by subst.
Qed.

(** [revise] of the across slot against the down slot. *)
Lemma revise_exact_witness :
  ∃ dx xval,
    get cross_domains cross_across = Some dx ∧
    get cross_revised cross_across = Some xval ∧
    (∀ w, w ∈ xval ↔
          w ∈ dx ∧ supported cross_crossword cross_domains cross_across
                     cross_down w) ∧
    (∀ z, z ≠ cross_across → get cross_revised z = get cross_domains z) ∧
    keys cross_revised = keys cross_domains ∧
    (true = true ↔ xval ≠ dx) ∧
    (true = false → cross_revised = cross_domains).
Proof.
  apply (revise_exact cross_crossword cross_across cross_down cross_domains
           cross_revised true).
  by vm_compute.
Defined.

Lemma cross_solution_within :
  solution_within cross_crossword cross_domains cross_solution.
Proof.
  split.
  - intros x [->|[->|?%elem_of_nil]%elem_of_cons]%elem_of_cons; [| | done].
    + exists "CAT", {[ "CAT"; "DOG"; "ART" ]}. split_and!; [done | done |].
      decide_by_compute.
    + exists "ART", {[ "CAT"; "DOG"; "ART" ]}. split_and!; [done | done |].
      decide_by_compute.
  - intros x y i j
      [->|[->|?%elem_of_nil]%elem_of_cons]%elem_of_cons
      [->|[->|?%elem_of_nil]%elem_of_cons]%elem_of_cons; try done;
      vm_compute; intros [= <- <-].
    + exists "CAT", "ART". eexists. split_and!; vm_compute; reflexivity.
    + exists "ART", "CAT". eexists. split_and!; vm_compute; reflexivity.
Qed.

(** The solution of [cross_crossword] survives [ac3]. *)
Lemma ac3_keeps_solutions_witness :
  solution_within cross_crossword
    (ac3 cross_crossword None cross_domains).2 cross_solution.
Proof.
  apply (ac3_keeps_solutions cross_crossword None cross_domains
           cross_solution cross_solution_within).
Defined.

Lemma cross_pruned_arc_consistent x y :
  (x, y) ∈ ac3_arcs cross_crossword None cross_pruned →
  arc_consistent cross_crossword cross_pruned x y.
Proof.
  intros Hin. unfold ac3_arcs, all_arcs in Hin.
  apply list_elem_of_bind in Hin as (x' & Hin & Hx').
  apply list_elem_of_bind in Hin as (y' & Hin & Hy'%elem_of_elements).
  apply list_elem_of_singleton in Hin as [= -> ->].
  pose proof (ac3_unfold cross_crossword None cross_domains) as Hloop.
  rewrite cross_ac3 in Hloop.
  eapply (ac3_loop_arc_consistent cross_crossword _ cross_domains true);
    [decide_by_compute | exact Hloop | done | done].
Qed.

(** [ac3] on the pruned domains of [cross_crossword]. *)
Lemma ac3_consistent_arcs_unchanged_witness :
  (ac3 cross_crossword None cross_pruned).2 = cross_pruned.
Proof.
  apply (ac3_consistent_arcs_unchanged cross_crossword None cross_pruned
           cross_pruned_arc_consistent).
Defined.

(** [ac3] twice on [cross_crossword]. *)
Lemma ac3_idempotent_witness :
  (ac3 cross_crossword None cross_pruned).2 = cross_pruned.
Proof.
  apply (ac3_idempotent cross_crossword cross_domains cross_pruned true).
  - decide_by_compute.
  - apply cross_ac3.
Defined.

(** [ac3] on the node-consistent domains of [cross_crossword]. *)
Lemma ac3_raises_nothing_witness :
  ∃ b d', ac3 cross_crossword None cross_domains = (Ok b, d').
Proof.
  apply (ac3_raises_nothing cross_crossword cross_domains).
  - by apply cross_graph_wf.
  - apply cross_domains_consistent_lengths.
Defined.

(** Sixteen turns are enough on [cross_domains]. *)
Lemma ac3_loop_bounded_witness :
  ∃ r d',
    ac3_loop cross_crossword 16 (all_arcs cross_crossword cross_domains)
      cross_domains = Some (r, d').
Proof.
  apply (ac3_loop_bounded cross_crossword
           (all_arcs cross_crossword cross_domains) cross_domains 16).
  vm_compute. lia.
Defined.

(** [consistent] on the solution of [cross_crossword]. *)
Lemma consistent_True_only_if_satisfied_witness :
  satisfies cross_crossword cross_solution.
Proof.
  apply (consistent_True_only_if_satisfied cross_crossword cross_pruned).
  by vm_compute.
Defined.

Lemma cross_solution_assigned_graph_wf :
  assigned_graph_wf cross_crossword cross_pruned cross_solution.
Proof. apply graph_wf_assigned; [by apply cross_graph_wf | done]. Qed.

(** [consistent] decides the constraints on the solution of
    [cross_crossword]. *)
Lemma consistent_decides_witness :
  ∃ b, consistent cross_crossword cross_pruned cross_solution = Ok b ∧
       (b = true ↔ satisfies cross_crossword cross_solution).
Proof.
  apply (consistent_decides cross_crossword cross_pruned cross_solution).
  - decide_by_compute.
  - apply cross_solution_assigned_graph_wf.
  - apply cross_solution_lengths.
Defined.

(** The check before and after pruning. *)
Lemma consistent_ignores_domain_words_witness :
  consistent cross_crossword cross_domains cross_solution
  = consistent cross_crossword cross_pruned cross_solution.
Proof.
  apply (consistent_ignores_domain_words cross_crossword cross_domains
           cross_pruned cross_solution).
  reflexivity.
Defined.

(** The values of the down slot of [comb_crossword], in order. *)
Lemma order_domain_values_sorted_permutation_witness :
  ∃ dv, get comb_domains comb_d = Some dv ∧ NoDup [ "CXCXC"; "CXCXD" ] ∧
    (∀ w, w ∈ [ "CXCXC"; "CXCXD" ] ↔ w ∈ dv) ∧
    ∃ ks, Forall2 (λ w k, sort comb_crossword comb_domains w comb_d = Ok k)
            [ "CXCXC"; "CXCXD" ] ks ∧
          StronglySorted Z.le ks.
Proof.
  apply (order_domain_values_sorted_permutation comb_crossword comb_domains
           comb_d [] [ "CXCXC"; "CXCXD" ]).
  by vm_compute.
Defined.

(** CXCXD rules out CAT and COT in the last across slot. *)
Lemma sort_counts_ruled_out_witness :
  2 = Z.of_nat
        (sum_list ((λ m, size (ruled_out comb_crossword comb_domains "CXCXD"
                                 comb_d m))
                   <$> elements (neighbors comb_crossword comb_d))).
Proof.
  apply (sort_counts_ruled_out comb_crossword comb_domains "CXCXD" comb_d 2).
  by vm_compute.
Defined.

(** On [twin_crossword] the search commits to CAT for the first slot and
    raises when the call on the second slot returns [None]. *)
Lemma backtrack_commits_to_first_consistent_value_witness :
  backtrack twin_crossword twin_domains []
  = match backtrack twin_crossword twin_domains
            (setitem [] twin_top "CAT") with
    | (Ok RetAssignment, a2) => (Ok RetAssignment, a2)
    | (Ok RetNone, a2) => (Err TypeError, a2)
    | (Err e, a2) => (Err e, a2)
    end.
Proof.
  apply (backtrack_commits_to_first_consistent_value twin_crossword
           twin_domains [] twin_top [] [] "CAT").
  - by vm_compute.
  - by vm_compute.
  - by vm_compute.
  - constructor.
  - by vm_compute.
Defined.

(** On [twin_crossword] with CAT in the first slot. *)
Lemma backtrack_None_iff_witness :
  [(twin_top, "CAT")] = [(twin_top, "CAT")] ∧
  assignment_complete twin_domains [(twin_top, "CAT")] = false ∧
  ∃ var vals,
    select_unassigned_variable twin_crossword twin_domains [(twin_top, "CAT")]
      = Ok (Some var) ∧
    order_domain_values twin_crossword twin_domains var [(twin_top, "CAT")]
      = Ok vals ∧
    Forall (λ p, consistent twin_crossword twin_domains
                   (setitem [(twin_top, "CAT")] var p) = Ok false) vals.
Proof.
  apply (backtrack_None_iff twin_crossword twin_domains [(twin_top, "CAT")]
           [(twin_top, "CAT")]).
  by vm_compute.
Defined.

(** The search on the pruned domains of [cross_crossword]. *)
Lemma backtrack_extends_witness :
  ∃ new, cross_solution = [] ++ new ∧
    (∀ v w, (v, w) ∈ new →
            v ∈ keys cross_pruned ∧ ∃ s, get cross_pruned v = Some s ∧ w ∈ s) ∧
    (NoDup (keys (@nil (Var * string))) → NoDup (keys cross_solution)).
Proof.
  apply (backtrack_extends cross_crossword cross_pruned [] cross_solution).
  by vm_compute.
Defined.

(** The exception [solve] raises on [comb_crossword]. *)
Lemma solve_raises_only_TypeError_witness :
  solve comb_crossword = Err TypeError ∧ TypeError = TypeError.
Proof.
  assert (H : solve comb_crossword = Err TypeError) by (by vm_compute).
  split; [exact H |].
  apply (solve_raises_only_TypeError comb_crossword TypeError); [| exact H].
  apply grid_graph_wf. intros v Hv.
  by apply (keys_init_domains comb_crossword).
Defined.

(** [solve] on [cross_unsat_crossword], whose domains [ac3] empties. *)
Lemma solve_None_iff_ac3_False_witness :
  solve cross_unsat_crossword = Ok None ↔
  ∃ d1 d2,
    enforce_node_consistency (init_domains cross_unsat_crossword) = Ok d1 ∧
    ac3 cross_unsat_crossword None d1 = (Ok false, d2).
Proof.
  apply (solve_None_iff_ac3_False cross_unsat_crossword).
  decide_by_compute.
Defined.

(** The assignment [solve] returns on [cross_crossword]. *)
Lemma solve_assigns_pool_words_witness :
  NoDup (keys cross_solution) ∧
  (∀ v, v ∈ keys cross_solution ↔ v ∈ variables cross_crossword) ∧
  (∀ v w, get cross_solution v = Some w → w ∈ words cross_crossword).
Proof.
  apply (solve_assigns_pool_words cross_crossword cross_solution).
  by vm_compute.
Defined.

(** The grid of the solution of [cross_crossword], 3 by 3. *)
Lemma letter_grid_shape_witness :
  ∃ g, letter_grid 3 3 cross_solution = Ok g ∧ grid_shape 3 3 g ∧
    ∀ c, in_grid 3 3 c → c ∉ (assignment_writes cross_solution).*1 →
         grid_lookup g c = Some None.
Proof.
  apply (letter_grid_shape 3 3 cross_solution); [lia | lia |].
  decide_by_compute.
Defined.

Lemma letter_grid_reads_back_witness :
  ∃ g, letter_grid 3 3 cross_solution = Ok g ∧
       grid_lookup g (cell_at cross_down 2) = Some (String.get 2 "ART").
Proof.
  destruct (letter_grid 3 3 cross_solution) as [g|] eqn:Hg;
    [| by vm_compute in Hg].
  exists g. split; [done |].
  apply (letter_grid_reads_back 3 3 cross_solution g) with (word := "ART")
                                                           (k := 2%nat).
  - lia.
  - lia.
  - decide_by_compute.
  - decide_by_compute.
  - exact Hg.
  - right. left.
  - reflexivity.
Defined.

(** The same assignment on a grid of 2 by 2. *)
Lemma letter_grid_out_of_range_witness :
  letter_grid 2 2 cross_solution = Err IndexError.
Proof.
  apply (letter_grid_out_of_range 2 2 cross_solution); [lia | lia |].
  decide_by_compute.
Defined.

(** [twin_crossword] has no solution and [ac3] prunes nothing. *)
Lemma solve_raises_when_search_fails_witness :
  solve twin_crossword = Err TypeError.
Proof.
  apply (solve_raises_when_search_fails twin_crossword twin_domains
           twin_domains).
  - apply grid_graph_wf. intros v Hv.
    by apply (keys_init_domains twin_crossword).
  - decide_by_compute.
  - by vm_compute.
  - by vm_compute.
  - intros a Hall Hpool Hsat.
    destruct (Hall twin_top) as [w1 Hg1]; [left |].
    destruct (Hall twin_bottom) as [w2 Hg2]; [right; left |].
    pose proof (Hpool _ _ Hg1) as Hw1. pose proof (Hpool _ _ Hg2) as Hw2.
    change (words twin_crossword) with ({[ "CAT" ]} : gset string) in Hw1, Hw2.
    apply elem_of_singleton in Hw1, Hw2. subst.
    by pose proof (sat_unique _ _ Hsat _ _ _ Hg1 Hg2).
Defined.

End FurtherExamples.
